(** * Web3ApiClient: resolution cache, invocation and query aggregation

    A shallow embedding of [packages/js/client/src/Web3ApiClient.ts]:
    the client constructor and [redirects], the implementation cache
    behind [loadWeb3Api], the [invoke] boundary and the aggregation
    done by [query], with the properties the specification states
    about them. *)

From Stdlib Require Import Ascii.
From stdpp Require Import base option list strings pretty gmap.

Set Warnings "-register-all".

Set Default Proof Using "Type".

(** ** JavaScript values that flow through the client *)

(** What a [throw] carries here.  The results declare [error?: Error]
    and [errors?: Error[]]: a failure is an [Error] object, or an array
    of failures (a document with several syntax errors). *)
Inductive JsErr : Type :=
| Err (message : string)
| ErrList (items : list JsErr).

(** The payload of [data] and [input] ([unknown] in the source).
    [undefined] is not a [JsValue]: a field that may be [undefined] has
    an [option] type, with [None] for [undefined]. *)
Inductive JsValue : Type :=
| JNull
| JBool (b : bool)
| JNum (n : Z)
| JStr (s : string)
| JArr (items : list JsValue)
| JObj (fields : list (string * JsValue)).

(** [error.length], as the condition of an [if]: an [Error] object has
    no [length] (falsy [undefined]); an array has its length, truthy
    when it is not 0. *)
Definition length_truthy (error : JsErr) : bool :=
  match error with
  | Err _ => false
  | ErrList items => negb (Nat.eqb (length items) 0)
  end.

(** ** Plain objects used as maps *)

(** The names every object literal inherits from [Object.prototype]. *)
Definition Object_prototype_names : list string :=
  [ "constructor"; "__defineGetter__"; "__defineSetter__"; "hasOwnProperty";
    "__lookupGetter__"; "__lookupSetter__"; "isPrototypeOf";
    "propertyIsEnumerable"; "toString"; "valueOf"; "__proto__";
    "toLocaleString" ]%string.

Definition inherited (name : string) : bool :=
  bool_decide (name ∈ Object_prototype_names).

Module JsObject.

(** The own properties of an object literal, in creation order. *)
Definition t (V : Type) : Type := list (string * V).

Definition empty {V} : t V := [].

Fixpoint get {V} (o : t V) (key : string) : option V :=
  match o with
  | [] => None
  | (k, v) :: rest => if decide (k = key) then Some v else get rest key
  end.

Fixpoint put {V} (o : t V) (key : string) (v : V) : t V :=
  match o with
  | [] => [(key, v)]
  | (k, w) :: rest =>
      if decide (k = key) then (k, v) :: rest else (k, w) :: put rest key v
  end.

(** [o[key] = v].  Writing to an own or a new key keeps, respectively
    appends, the property; ["__proto__"] is the accessor of the
    prototype and never becomes an own property. *)
Definition set {V} (o : t V) (key : string) (v : V) : t V :=
  if decide (key = "__proto__"%string) then o else put o key v.

(** A canonical array index: the decimal numeral of some
    [n < 2^32 - 1]. *)
Definition digit_value (c : ascii) : option N :=
  let n := N_of_ascii c in
  if bool_decide (48 ≤ n ∧ n ≤ 57)%N then Some (n - 48)%N else None.

Fixpoint read_digits (acc : N) (s : string) : option N :=
  match s with
  | EmptyString => Some acc
  | String c rest =>
      match digit_value c with
      | Some d => read_digits (acc * 10 + d)%N rest
      | None => None
      end
  end.

Definition array_index (key : string) : option N :=
  match key with
  | EmptyString => None
  | String c rest =>
      match read_digits 0 key with
      | Some n =>
          if bool_decide (pretty n = key ∧ n < 4294967295)%N
          then Some n else None
      | None => None
      end
  end.

Fixpoint insert_sorted (n : N) (key : string) (l : list (N * string))
  : list (N * string) :=
  match l with
  | [] => [(n, key)]
  | (m, k) :: rest =>
      if bool_decide (n < m)%N then (n, key) :: l
      else (m, k) :: insert_sorted n key rest
  end.

(** [Object.keys(o)]: array indices in ascending order, then the
    other keys in creation order. *)
Definition keys {V} (o : t V) : list string :=
  let indexed :=
    foldr (fun kv acc =>
             match array_index kv.1 with
             | Some n => insert_sorted n kv.1 acc
             | None => acc
             end) [] o in
  (snd <$> indexed) ++
  filter (fun k => array_index k = None) (fst <$> o).

End JsObject.

(** ** The renaming of repeated field names *)

(** One step of the [reduce] in [makeRepeatedUnique].  [counts] holds
    the own numeric properties of the [counts] object.  For a name that
    [{}] inherits, [counts[name]] is a function (or the prototype), so
    [(counts[name] || 0) + 1] is a string, [count > 1] compares [NaN]
    and is false, and the value stored is again not a number. *)
Definition makeRepeatedUnique_step
    (st : gmap string nat * list string) (name : string)
  : gmap string nat * list string :=
  let '(counts, acc) := st in
  if inherited name then (counts, acc ++ [name])
  else
    let count := default 0 (counts !! name) + 1 in
    let uniq :=
      if bool_decide (1 < count) then name +:+ "_" +:+ pretty (count - 1)
      else name in
    (<[name := count]> counts, acc ++ [uniq]).

Definition makeRepeatedUnique (names : list string) : list string :=
  (foldl makeRepeatedUnique_step (∅, []) names).2.

(** The renaming in the words of the specification: the first
    occurrence of a name keeps the bare name, a later one is suffixed
    with the number of occurrences before it. *)
Definition occurrences (name : string) (names : list string) : nat :=
  length (filter (λ n, n = name) names).

Definition suffixed (name : string) (earlier : nat) : string :=
  if bool_decide (earlier = 0) then name
  else name +:+ "_" +:+ pretty earlier.

Definition makeRepeatedUnique_spec (names : list string) : list string :=
  imap (λ i name, suffixed name (occurrences name (take i names))) names.


(** ** Uris, redirects and implementations *)

Module Uri.
Record t : Type := mk { authority : string; path : string; uri : string }.
End Uri.

Record PluginPackage : Type := mkPluginPackage { plugin_name : string }.

Record Manifest : Type := mkManifest { manifest_name : string }.

(** [to: TUri | PluginPackage]. *)
Inductive RedirectTo (TUri : Type) : Type :=
| ToUri (u : TUri)
| ToPlugin (plugin : PluginPackage).
Arguments ToUri {TUri} u.
Arguments ToPlugin {TUri} plugin.

Record UriRedirect (TUri : Type) : Type :=
  mkUriRedirect { from : TUri; to : RedirectTo TUri }.
Arguments mkUriRedirect {TUri} from to.
Arguments from {TUri} _.
Arguments to {TUri} _.

Record ClientConfig (TUri : Type) : Type :=
  mkClientConfig { config_redirects : list (UriRedirect TUri) }.
Arguments mkClientConfig {TUri} config_redirects.
Arguments config_redirects {TUri} _.

(** The two constructor calls [loadWeb3Api] hands to [resolveUri]:
    [new PluginWeb3Api(uri, plugin)] and
    [new WasmWeb3Api(uri, manifest, apiResolver)]. *)
Inductive ApiCtor : Type :=
| PluginWeb3Api (uri : Uri.t) (plugin : PluginPackage)
| WasmWeb3Api (uri : Uri.t) (manifest : Manifest) (apiResolver : Uri.t).

(** Whether [resolveUri] reaches the callback before its first
    [await]: a plugin is found by the walk over the redirects, which
    is synchronous; a module is built from a manifest that the
    resolver has to await. *)
Definition created_at_call (ctor : ApiCtor) : bool :=
  match ctor with
  | PluginWeb3Api _ _ => true
  | WasmWeb3Api _ _ _ => false
  end.

(** An implementation instance: an object, with its identity. *)
Record Api : Type := mkApi { api_ref : nat; api_ctor : ApiCtor }.

Inductive TraceEvent : Type :=
| StartSpan (name : string)
| SetAttribute (name : string)
| AddEvent (name : string)
| RecordException (error : JsErr)
| EndSpan.

(** The state of one client.  [resolutions] and [instances] are
    instrumentation: the calls of [resolveUri] made so far and the
    [Api] objects created so far (the next object gets [instances] as
    its identity). *)
Record Web3ApiClient : Type := mkWeb3ApiClient {
  _apiCache : gmap string Api;
  _config : ClientConfig Uri.t;
  _tracer : list TraceEvent;
  resolutions : nat;
  instances : nat
}.

Record InvokeApiOptions (TUri : Type) : Type := mkInvokeApiOptions {
  io_uri : TUri;
  io_module : string;
  method : string;
  input : JsValue;
  resultFilter : option string;
  decode : option bool
}.
Arguments mkInvokeApiOptions {TUri} _ _ _ _ _ _.
Arguments io_uri {TUri} _.
Arguments io_module {TUri} _.
Arguments method {TUri} _.
Arguments input {TUri} _.
Arguments resultFilter {TUri} _.
Arguments decode {TUri} _.

Record InvokeApiResult : Type :=
  mkInvokeApiResult { data : option JsValue; error : option JsErr }.

Record QueryApiResult : Type := mkQueryApiResult {
  q_data : option (JsObject.t (option JsValue));
  q_errors : option JsErr
}.

(** ** Asynchronous functions *)

Inductive Outcome (A : Type) : Type :=
| Returned (a : A)
| Thrown (e : JsErr).
Arguments Returned {A} a.
Arguments Thrown {A} e.

(** A promise as its owner sees it: settled, or suspended at an
    [await].  Resuming a suspended task at client state [c] runs its
    next synchronous segment: the state becomes [effect c] and the rest
    of the task is [next c].  A task is a well-founded tree: every
    promise settles after finitely many turns. *)
Inductive Task (A : Type) : Type :=
| Settled (o : Outcome A)
| Pending (effect : Web3ApiClient → Web3ApiClient)
          (next : Web3ApiClient → Task A).
Arguments Settled {A} o.
Arguments Pending {A} effect next.

(** A call of an [async] function: its first segment runs at once. *)
Definition Async (A : Type) : Type :=
  Web3ApiClient → Web3ApiClient * Task A.

Definition suspend {A} (k : Async A) : Task A :=
  Pending (λ c, (k c).1) (λ c, (k c).2).

Definition resume {A} (t : Task A) : Async A :=
  λ c, match t with
       | Settled o => (c, Settled o)
       | Pending effect next => (effect c, next c)
       end.

Definition settle {A} (o : Outcome A) : Async A := λ c, (c, Settled o).
Definition throw {A} (e : JsErr) : Async A := settle (Thrown e).

(** Continue with [k] once [t] has settled. *)
Fixpoint on_settle {A B} (t : Task A) (k : Outcome A → Async B) : Async B :=
  match t with
  | Settled o => k o
  | Pending effect next =>
      λ c, (c, Pending (λ c', (on_settle (next c') k (effect c')).1)
                       (λ c', (on_settle (next c') k (effect c')).2))
  end.

Global Instance Async_ret : MRet Async := λ A a, settle (Returned a).

Global Instance Async_bind : MBind Async := λ A B f m c,
  let '(c', t) := m c in
  on_settle t (λ o, match o with
                    | Returned a => f a
                    | Thrown e => throw e
                    end) c'.

(** [await p]: the caller is suspended at least until the next turn,
    also when [p] has already settled. *)
Definition await {A} (p : Async A) : Async A := λ c,
  let '(c', t) := p c in
  (c', match t with
       | Settled o => Pending id (λ _, Settled o)
       | Pending _ _ => t
       end).

Definition try_catch {A} (body : Async A) (handler : JsErr → Async A)
  : Async A := λ c,
  let '(c', t) := body c in
  on_settle t (λ o, match o with
                    | Returned a => mret a
                    | Thrown e => handler e
                    end) c'.

Definition try_finally {A} (body : Async A)
    (finalizer : Web3ApiClient → Web3ApiClient) : Async A := λ c,
  let '(c', t) := body c in
  on_settle t (λ o c'', (finalizer c'', Settled o)) c'.

(** Run one task on its own until it settles. *)
Fixpoint run_task {A} (t : Task A) (c : Web3ApiClient)
  : Web3ApiClient * Outcome A :=
  match t with
  | Settled o => (c, o)
  | Pending effect next => run_task (next c) (effect c)
  end.

Definition run {A} (m : Async A) (c : Web3ApiClient)
  : Web3ApiClient * Outcome A :=
  let '(c', t) := m c in run_task t c'.

(** A task that, whenever and in whatever states its turns run, ends
    by returning a value that satisfies [P]. *)
Inductive returns_with {A} (P : A → Prop) : Task A → Prop :=
| returns_settled a : P a → returns_with P (Settled (Returned a))
| returns_pending effect next :
    (∀ c, returns_with P (next c)) → returns_with P (Pending effect next).

Definition never_throws {A} (t : Task A) : Prop := returns_with (λ _, True) t.

(** A call of [loadWeb3Api(uri)] suspended on a resolution that ends in
    the module [ctor]: its next turn creates the instance, stores it
    under [uri] and returns it. *)
Definition load_in_flight (uri : Uri.t) (ctor : ApiCtor) (t : Task Api)
  : Prop :=
  ∃ effect next,
    t = Pending effect next ∧
    ∀ c, next c = Settled (Returned (mkApi (instances c) ctor)) ∧
         instances (effect c) = S (instances c) ∧
         resolutions (effect c) = resolutions c ∧
         _config (effect c) = _config c ∧
         _apiCache (effect c) =
           <[Uri.uri uri := mkApi (instances c) ctor]> (_apiCache c).

(** A call of [loadWeb3Api(uri)] whose resolution had created [api]
    before it first suspended: its next turn stores [api] under [uri]
    and returns it. *)
Definition load_created (uri : Uri.t) (api : Api) (t : Task Api) : Prop :=
  ∃ effect next,
    t = Pending effect next ∧
    ∀ c, next c = Settled (Returned api) ∧
         instances (effect c) = instances c ∧
         resolutions (effect c) = resolutions c ∧
         _config (effect c) = _config c ∧
         _apiCache (effect c) = <[Uri.uri uri := api]> (_apiCache c).

(** The identities of the instances that settled tasks hold, and the
    number of tasks still pending. *)
Definition settled_refs (ts : list (Task Api)) : list nat :=
  omap (λ t, match t with
             | Settled (Returned api) => Some (api_ref api)
             | _ => None
             end) ts.

Fixpoint pending_count {A} (ts : list (Task A)) : nat :=
  match ts with
  | [] => 0
  | Settled _ :: rest => pending_count rest
  | Pending _ _ :: rest => S (pending_count rest)
  end.

(** *** Several tasks in flight *)

(** Call the functions one after the other, as a loop does: each runs
    its first segment before the next one is called. *)
Fixpoint call_all {A} (ms : list (Async A)) (c : Web3ApiClient)
  : Web3ApiClient * list (Task A) :=
  match ms with
  | [] => (c, [])
  | m :: rest =>
      let '(c1, t) := m c in
      let '(c2, ts) := call_all rest c1 in
      (c2, t :: ts)
  end.

(** Resume the tasks in the order a schedule names them (an index that
    names no task, or a settled one, is a turn in which nothing
    happens). *)
Fixpoint interleave {A} (schedule : list nat) (ts : list (Task A))
    (c : Web3ApiClient) : Web3ApiClient * list (Task A) :=
  match schedule with
  | [] => (c, ts)
  | i :: schedule' =>
      match ts !! i with
      | Some t =>
          let '(c', t') := resume t c in
          interleave schedule' (<[i := t']> ts) c'
      | None => interleave schedule' ts c
      end
  end.

Fixpoint run_all {A} (ts : list (Task A)) (c : Web3ApiClient)
  : Web3ApiClient * list (Outcome A) :=
  match ts with
  | [] => (c, [])
  | t :: rest =>
      let '(c1, o) := run_task t c in
      let '(c2, os) := run_all rest c1 in
      (c2, o :: os)
  end.

(** All tasks run to the end: interleaved as the schedule says, and
    what is then still pending is run in list order. *)
Definition settle_all {A} (schedule : list nat) (ts : list (Task A))
    (c : Web3ApiClient) : Web3ApiClient * list (Outcome A) :=
  let '(c', ts') := interleave schedule ts c in run_all ts' c'.

Fixpoint all_fulfilled {A} (os : list (Outcome A)) : Outcome (list A) :=
  match os with
  | [] => Returned []
  | Thrown e :: _ => Thrown e
  | Returned a :: rest =>
      match all_fulfilled rest with
      | Returned l => Returned (a :: l)
      | Thrown e => Thrown e
      end
  end.

(** [Promise.all] over calls made in a loop.  When some entries are
    rejected, the rejection kept is that of the first one in list
    order. *)
Definition Promise_all {A} (schedule : list nat) (ms : list (Async A))
  : Async (list A) := λ c,
  let '(c1, ts) := call_all ms c in
  (c1, suspend (λ c2,
         let '(c3, os) := settle_all schedule ts c2 in
         (c3, Settled (all_fulfilled os)))).

(** ** The client *)

Definition traced (events : list TraceEvent) (c : Web3ApiClient)
  : Web3ApiClient :=
  mkWeb3ApiClient (_apiCache c) (_config c) (_tracer c ++ events)
    (resolutions c) (instances c).

Definition trace (ev : TraceEvent) : Async unit := λ c,
  (traced [ev] c, Settled (Returned tt)).

Definition endSpan : Web3ApiClient → Web3ApiClient := traced [EndSpan].

Definition redirects (c : Web3ApiClient) : list (UriRedirect Uri.t) :=
  config_redirects (_config c).

(** [this._apiCache.get(key)] and [this._apiCache.set(key, api)]. *)
Definition apiCache_get (key : string) : Async (option Api) := λ c,
  (c, Settled (Returned (_apiCache c !! key))).

Definition apiCache_set (key : string) (api : Api) : Async unit := λ c,
  (mkWeb3ApiClient (<[key := api]> (_apiCache c)) (_config c) (_tracer c)
     (resolutions c) (instances c),
   Settled (Returned tt)).

(** The callbacks [(uri, plugin) => new PluginWeb3Api(uri, plugin)] and
    [(uri, manifest, apiResolver) => new WasmWeb3Api(...)]: every call
    creates an object. *)
Definition new_Api (ctor : ApiCtor) : Async Api := λ c,
  (mkWeb3ApiClient (_apiCache c) (_config c) (_tracer c)
     (resolutions c) (S (instances c)),
   Settled (Returned (mkApi (instances c) ctor))).

(** The collaborators of the client: what it imports from
    [@web3api/core-js] and [./default-redirects], and the [invoke] of
    the implementations. *)
Class CoreJs : Type := {
  QueryDocument : Type;
  new_Uri : string → Outcome Uri.t;
  Uri_toString : Uri.t → string;
  sanitizeUriRedirects :
    list (UriRedirect string) → Outcome (list (UriRedirect Uri.t));
  getDefaultRedirects : list (UriRedirect Uri.t);
  createQueryDocument : string → Outcome QueryDocument;
  parseQuery :
    Uri.t → QueryDocument → option JsValue →
    Outcome (list (InvokeApiOptions Uri.t));
  (** What a resolution ends in: a failure, nothing, or the arguments
      with which it calls one of the two callbacks. *)
  resolveUri : Uri.t → list (UriRedirect Uri.t) → Outcome (option ApiCtor);
  (** [api.invoke(options, client)]. *)
  Api_invoke : Api → InvokeApiOptions Uri.t → Async InvokeApiResult
}.

Record QueryApiOptions `{CoreJs} : Type := mkQueryApiOptions {
  q_uri : string;
  q_query : string + QueryDocument;
  q_variables : option JsValue
}.
Arguments mkQueryApiOptions {_} _ _ _.

Section Client.

Context `{CoreJs}.

(** [constructor(config)]: a failure of the sanitizer leaves no
    client. *)
Definition new_Web3ApiClient (config : ClientConfig string)
  : Outcome Web3ApiClient :=
  match sanitizeUriRedirects (config_redirects config) with
  | Thrown e => Thrown e
  | Returned sanitized =>
      Returned
        (mkWeb3ApiClient ∅
           (mkClientConfig (sanitized ++ getDefaultRedirects))
           [StartSpan "constructor"; SetAttribute "config";
            AddEvent "created"; EndSpan]
           0 0)
  end.

(** The call [resolveUri(uri, this, createPluginApi, createApi)]:
    asynchronous; when it completes it has called one of the
    callbacks, or none.  Its first segment runs at the call: the
    callback of a plugin redirect has run, and the object exists, by
    the time the caller is suspended; a module is created in a later
    turn. *)
Definition resolveUri_call (uri : Uri.t) : Async (option Api) := λ c,
  let c1 :=
    mkWeb3ApiClient (_apiCache c) (_config c) (_tracer c)
      (S (resolutions c)) (instances c) in
  match resolveUri uri (redirects c) with
  | Thrown e => (c1, suspend (throw e))
  | Returned None => (c1, suspend (mret None))
  | Returned (Some ctor) =>
      if created_at_call ctor
      then (api ← new_Api ctor; mret (Some api)) c1
      else (c1, suspend (api ← new_Api ctor; mret (Some api)))
  end.

Definition loadWeb3Api (uri : Uri.t) : Async Api :=
  api ← apiCache_get (Uri.uri uri);
  trace (StartSpan "load-web3api");;
  trace (SetAttribute "uri");;
  match api with
  | Some api => trace EndSpan;; mret api
  | None =>
      api ← await (resolveUri_call uri);
      trace (AddEvent "resolve-uri");;
      match api with
      | None =>
          throw (Err ("Unable to resolve Web3API at uri: "
                      +:+ Uri_toString uri))
      | Some api =>
          apiCache_set (Uri.uri uri) api;;
          trace EndSpan;;
          mret api
      end
  end.

(** The [try] block of [invoke]. *)
Definition invoke_body (options : InvokeApiOptions string)
  : Async InvokeApiResult :=
  uri ← settle (new_Uri (io_uri options));
  trace (StartSpan "invoke");;
  trace (SetAttribute "options");;
  api ← await (loadWeb3Api uri);
  trace (AddEvent "load-web3api");;
  await (Api_invoke api
           (mkInvokeApiOptions uri (io_module options)
              (method options) (input options)
              (resultFilter options) (decode options))).

Definition invoke (options : InvokeApiOptions string)
  : Async InvokeApiResult :=
  try_finally
    (try_catch (invoke_body options)
       (λ error,
          trace (RecordException error);;
          mret (mkInvokeApiResult None (Some error))))
    endSpan.

(** The aggregation of the settled invocations in [query]. *)
Definition aggregate (invocations : list (string * InvokeApiResult))
  : QueryApiResult :=
  let methods := invocations.*1 in
  let resultDatas := (λ i, data i.2) <$> invocations in
  let errors := omap (λ i, error i.2) invocations in
  let methods := makeRepeatedUnique methods in
  let data :=
    foldl (λ d kv, JsObject.set d kv.1 kv.2) JsObject.empty
      (zip methods resultDatas) in
  mkQueryApiResult (Some data)
    (if bool_decide (length errors = 0) then None
     else Some (ErrList errors)).

(** One entry of [parallelInvocations]. *)
Definition query_invocation (invocation : InvokeApiOptions Uri.t)
  : Async (string * InvokeApiResult) :=
  result ←
    invoke
      (mkInvokeApiOptions (Uri.uri (io_uri invocation))
         (io_module invocation) (method invocation) (input invocation)
         (resultFilter invocation) (Some true));
  mret (method invocation, result).

(** The [try] block of [query].  [schedule] is the order in which
    the turns of the parallel invocations happen to run. *)
Definition query_body (schedule : list nat) (options : QueryApiOptions)
  : Async QueryApiResult :=
  trace (StartSpan "query");;
  trace (SetAttribute "options");;
  queryDocument ←
    match q_query options with
    | inl text => settle (createQueryDocument text)
    | inr document => mret document
    end;
  uri ← settle (new_Uri (q_uri options));
  invokeOptions ←
    settle (parseQuery uri queryDocument (q_variables options));
  invocations ←
    await (Promise_all schedule (query_invocation <$> invokeOptions));
  trace (AddEvent "invocations finished");;
  let result := aggregate invocations in
  trace (SetAttribute "methods");;
  trace (SetAttribute "data");;
  mret result.

Definition query (schedule : list nat) (options : QueryApiOptions)
  : Async QueryApiResult :=
  try_finally
    (try_catch (query_body schedule options)
       (λ error,
          trace (RecordException error);;
          if length_truthy error
          then mret (mkQueryApiResult None (Some error))
          else mret (mkQueryApiResult None (Some (ErrList [error])))))
    endSpan.

(** *** Notions used to state the properties *)

(** What the [catch] block of [query] returns for a thrown [e]. *)
Definition query_failure (e : JsErr) : QueryApiResult :=
  mkQueryApiResult None
    (Some (if length_truthy e then e else ErrList [e])).

(** What the compilation of the query yields: the statements of the
    [try] block of [query] up to [parseQuery]. *)
Definition query_compile (options : QueryApiOptions)
  : Outcome (list (InvokeApiOptions Uri.t)) :=
  match
    match q_query options with
    | inl text => createQueryDocument text
    | inr document => Returned document
    end
  with
  | Thrown e => Thrown e
  | Returned queryDocument =>
      match new_Uri (q_uri options) with
      | Thrown e => Thrown e
      | Returned uri =>
          parseQuery uri queryDocument (q_variables options)
      end
  end.

(** The settled [invocations] of a query at client state [c], when it
    gets that far. *)
Definition settled_invocations (schedule : list nat)
    (options : QueryApiOptions) (c : Web3ApiClient)
  : option (list (string * InvokeApiResult)) :=
  match query_compile options with
  | Thrown _ => None
  | Returned invokeOptions =>
      let '(c1, ts) :=
        call_all (query_invocation <$> invokeOptions)
          (traced [StartSpan "query"; SetAttribute "options"] c) in
      match all_fulfilled (settle_all schedule ts c1).2 with
      | Returned invocations => Some invocations
      | Thrown _ => None
      end
  end.

(** The failure [loadWeb3Api] ends with when the resolution of [uri]
    finds no implementation. *)
Definition resolution_failure (uri : Uri.t)
    (table : list (UriRedirect Uri.t)) : option JsErr :=
  match resolveUri uri table with
  | Thrown e => Some e
  | Returned None =>
      Some (Err ("Unable to resolve Web3API at uri: " +:+ Uri_toString uri))
  | Returned (Some _) => None
  end.

(** What [invoke] returns for an outcome of its [try] block. *)
Definition caught (o : Outcome InvokeApiResult) : InvokeApiResult :=
  match o with
  | Returned result => result
  | Thrown e => mkInvokeApiResult None (Some e)
  end.

(** Whether the invocation of a field starts a resolution at client
    state [c]: its Uri is valid and has no cached implementation. *)
Definition needs_resolution (c : Web3ApiClient)
    (invocation : InvokeApiOptions Uri.t) : bool :=
  match new_Uri (Uri.uri (io_uri invocation)) with
  | Returned uri => bool_decide (_apiCache c !! Uri.uri uri = None)
  | Thrown _ => false
  end.

(** Whether the invocation of a field has created an instance by the
    time it first suspends: it starts a resolution, and the resolution
    ends in the callback of a plugin. *)
Definition creates_at_call (c : Web3ApiClient)
    (invocation : InvokeApiOptions Uri.t) : bool :=
  match new_Uri (Uri.uri (io_uri invocation)) with
  | Returned uri =>
      bool_decide (_apiCache c !! Uri.uri uri = None) &&
      match resolveUri uri (redirects c) with
      | Returned (Some ctor) => created_at_call ctor
      | _ => false
      end
  | Thrown _ => false
  end.

(** The instances in the cache are objects this client has created:
    their identities are below the next one. *)
Definition cache_created (c : Web3ApiClient) : Prop :=
  ∀ key api, _apiCache c !! key = Some api → api_ref api < instances c.

(** Implementations that leave the client alone: their [invoke] makes
    no call back into it. *)
Definition Api_passive : Prop :=
  ∀ api options c,
    let c' := (run (Api_invoke api options) c).1 in
    _apiCache c' = _apiCache c ∧ _config c' = _config c ∧
    resolutions c' = resolutions c ∧ instances c' = instances c.

(** [n] calls of [loadWeb3Api(uri)] made in one turn, then run to
    the end under a schedule. *)
Definition concurrent_loads (n : nat) (schedule : list nat) (uri : Uri.t)
    (c : Web3ApiClient) : Web3ApiClient * list (Outcome Api) :=
  let '(c1, ts) := call_all (replicate n (loadWeb3Api uri)) c in
  settle_all schedule ts c1.

End Client.

(** ** The resolver and a concrete set of collaborators *)

Module Resolver.

Definition matches (current : Uri.t) (rule : UriRedirect Uri.t) : bool :=
  bool_decide (Uri.uri (from rule) = Uri.uri current).

Definition first_match (table : list (UriRedirect Uri.t)) (current : Uri.t)
  : option (UriRedirect Uri.t) :=
  List.find (matches current) table.

(** Modelled from the spec: [resolveUri] of [@web3api/core-js], which is
    not part of this package.  Section 4.2: keep a visited set seeded
    with the input Uri; find the first rule whose [from] matches the
    current Uri; fail with [UnresolvedUriError] if there is none;
    if its [to] is a factory, build the implementation for the matched
    Uri and stop; if it is a Uri already visited, fail with
    [RedirectCycleError]; otherwise continue from it.  A walk makes at
    most as many hops as the table has rules. *)
Fixpoint walk (fuel : nat) (table : list (UriRedirect Uri.t))
    (visited : list string) (current : Uri.t) : Outcome (option ApiCtor) :=
  match fuel with
  | 0 => Thrown (Err "RedirectCycleError")
  | S fuel' =>
      match first_match table current with
      | None => Thrown (Err "UnresolvedUriError")
      | Some rule =>
          match to rule with
          | ToPlugin plugin => Returned (Some (PluginWeb3Api current plugin))
          | ToUri next =>
              if bool_decide (Uri.uri next ∈ visited)
              then Thrown (Err "RedirectCycleError")
              else walk fuel' table (Uri.uri next :: visited) next
          end
      end
  end.

Definition resolveUri (uri : Uri.t) (table : list (UriRedirect Uri.t))
  : Outcome (option ApiCtor) :=
  walk (S (length table)) table [Uri.uri uri] uri.

End Resolver.

(** Collaborators to run the client on: a Uri parser and a sanitizer
    after the specification, a plugin, and a query compiler. *)
Module Scenario.

Fixpoint split_slash (s : string) : string * option string :=
  match s with
  | EmptyString => (EmptyString, None)
  | String c rest =>
      if Ascii.eqb c "/" then (EmptyString, Some rest)
      else let '(a, p) := split_slash rest in (String c a, p)
  end.

Definition strip_scheme (s : string) : string :=
  match s with
  | String "w" (String "3" (String ":" (String "/" (String "/" rest)))) =>
      rest
  | _ => s
  end.

(** Modelled from the spec: the constructor of [Uri], which is not part
    of this package.  Sections 3 and 4.1: a normalizing parse that
    fails with [InvalidUriError] on malformed input.  Here a Uri is
    [w3://authority/path], the scheme being optional on input, and an
    empty authority or path is malformed. *)
Definition parse (text : string) : Outcome Uri.t :=
  match split_slash (strip_scheme text) with
  | (String c a as authority, Some (String d p as path)) =>
      Returned (Uri.mk authority path ("w3://" +:+ authority +:+ "/" +:+ path))
  | _ => Thrown (Err "InvalidUriError")
  end.

Definition parse_to (target : RedirectTo string)
  : Outcome (RedirectTo Uri.t) :=
  match target with
  | ToPlugin plugin => Returned (ToPlugin plugin)
  | ToUri text =>
      match parse text with
      | Returned u => Returned (ToUri u)
      | Thrown e => Thrown e
      end
  end.

(** Modelled from the spec: [sanitizeUriRedirects], which is not part of
    this package.  Section 4.1: fail with [CyclicRedirectError] when a
    rule's [from] equals its own [to]; keep the first rule of each
    [from], in order. *)
Fixpoint sanitize (rules : list (UriRedirect string))
    (seen : list string) : Outcome (list (UriRedirect Uri.t)) :=
  match rules with
  | [] => Returned []
  | rule :: rest =>
      match parse (from rule), parse_to (to rule) with
      | Thrown e, _ => Thrown e
      | _, Thrown e => Thrown e
      | Returned f, Returned target =>
          if match target with
             | ToUri t => bool_decide (Uri.uri t = Uri.uri f)
             | ToPlugin _ => false
             end
          then Thrown (Err "CyclicRedirectError")
          else if bool_decide (Uri.uri f ∈ seen) then sanitize rest seen
          else
            match sanitize rest (Uri.uri f :: seen) with
            | Returned out => Returned (mkUriRedirect f target :: out)
            | Thrown e => Thrown e
            end
      end
  end.

(** A plugin whose methods return their argument, and throw when it
    is [null]. *)
Definition plugin_invoke (api : Api) (options : InvokeApiOptions Uri.t)
  : Async InvokeApiResult :=
  match input options with
  | JNull => throw (Err "the plugin method threw")
  | v => mret (mkInvokeApiResult (Some v) None)
  end.

(** A query document is the list of its fields, each a method name
    with its argument. *)
Definition compile (uri : Uri.t) (document : list (string * JsValue))
    (variables : option JsValue) : Outcome (list (InvokeApiOptions Uri.t)) :=
  Returned
    ((λ field, mkInvokeApiOptions uri "query" field.1 field.2 None None)
       <$> document).

Definition document_of (text : string)
  : Outcome (list (string * JsValue)) :=
  if bool_decide (text = "")
  then Thrown (Err "Syntax Error: Unexpected <EOF>.")
  else Returned [(text, JBool true)].

Definition defaults : list (UriRedirect Uri.t) :=
  [ mkUriRedirect (Uri.mk "w3" "logger" "w3://w3/logger")
      (ToPlugin (mkPluginPackage "logger")) ].

Global Instance core : CoreJs := {|
  QueryDocument := list (string * JsValue);
  new_Uri := parse;
  Uri_toString := Uri.uri;
  sanitizeUriRedirects := λ rules, sanitize rules [];
  getDefaultRedirects := defaults;
  createQueryDocument := document_of;
  parseQuery := compile;
  resolveUri := Resolver.resolveUri;
  Api_invoke := plugin_invoke
|}.

(** The chain A → B → C → plugin. *)
Definition chain : ClientConfig string :=
  mkClientConfig
    [ mkUriRedirect "ens/a.eth" (ToUri "ens/b.eth");
      mkUriRedirect "ens/b.eth" (ToUri "ens/c.eth");
      mkUriRedirect "ens/c.eth" (ToPlugin (mkPluginPackage "c")) ].

Definition uriA : Uri.t := Uri.mk "ens" "a.eth" "w3://ens/a.eth".
Definition uriB : Uri.t := Uri.mk "ens" "b.eth" "w3://ens/b.eth".
Definition uriC : Uri.t := Uri.mk "ens" "c.eth" "w3://ens/c.eth".

Definition client : Web3ApiClient :=
  match new_Web3ApiClient chain with
  | Returned c => c
  | Thrown _ => mkWeb3ApiClient ∅ (mkClientConfig []) [] 0 0
  end.

Definition fields (document : list (string * JsValue)) : QueryApiOptions :=
  mkQueryApiOptions "ens/a.eth" (inr document) None.

(** The implementation the chain ends in. *)
Definition apiC : ApiCtor := PluginWeb3Api uriC (mkPluginPackage "c").

Definition ok (v : JsValue) : InvokeApiResult :=
  mkInvokeApiResult (Some v) None.

Definition failed : InvokeApiResult :=
  mkInvokeApiResult None (Some (Err "the plugin method threw")).

(** The client after a first [loadWeb3Api] of C. *)
Definition warm : Web3ApiClient := (run (loadWeb3Api uriC) client).1.

Definition call (text : string) (v : JsValue) : InvokeApiOptions string :=
  mkInvokeApiOptions text "query" "echo" v None None.

End Scenario.


(** * Properties *)

(** ** Running asynchronous functions *)

Lemma run_on_settle {A B} (t : Task A) (k : Outcome A → Async B) c :
  run (on_settle t k) c = let '(c1, o) := run_task t c in run (k o) c1.
Proof.
  revert c. induction t as [o | effect next IH]; intros c; [done|].
  cbn. specialize (IH c (effect c)). unfold run in IH at 1.
  destruct (on_settle (next c) k (effect c)) as [c' t']. exact IH.
Qed.

Section Running.

Context {A B : Type}.

Lemma run_bind (m : Async A) (f : A → Async B) c :
  run (m ≫= f) c =
  match run m c with
  | (c1, Returned a) => run (f a) c1
  | (c1, Thrown e) => (c1, Thrown e)
  end.
Proof.
  unfold run at 1 2, mbind, Async_bind. destruct (m c) as [c' t].
  pose proof (run_on_settle t (λ o, match o with
                                    | Returned a => f a
                                    | Thrown e => throw e
                                    end) c') as E.
  unfold run in E at 1. rewrite E.
  by destruct (run_task t c') as [c1 [a | e]].
Qed.

Lemma run_await (m : Async A) c : run (await m) c = run m c.
Proof. unfold run, await. by destruct (m c) as [c' [o | effect next]]. Qed.

Lemma run_try_catch (body : Async A) (handler : JsErr → Async A) c :
  run (try_catch body handler) c =
  match run body c with
  | (c1, Returned a) => (c1, Returned a)
  | (c1, Thrown e) => run (handler e) c1
  end.
Proof.
  unfold run at 1 2, try_catch. destruct (body c) as [c' t].
  pose proof (run_on_settle t (λ o, match o with
                                    | Returned a => mret a
                                    | Thrown e => handler e
                                    end) c') as E.
  unfold run in E at 1. rewrite E.
  by destruct (run_task t c') as [c1 [a | e]].
Qed.

Lemma run_try_finally (body : Async A) finalizer c :
  run (try_finally body finalizer) c =
  let '(c1, o) := run body c in (finalizer c1, o).
Proof.
  unfold run at 1 2, try_finally. destruct (body c) as [c' t].
  pose proof (run_on_settle t (λ o c'', (finalizer c'', Settled o)) c') as E.
  unfold run in E at 1. rewrite E.
  by destruct (run_task t c') as [c1 o].
Qed.

(** *** Tasks that always return *)

Lemma returns_with_mono (P Q : A → Prop) (t : Task A) :
  (∀ a, P a → Q a) → returns_with P t → returns_with Q t.
Proof.
  intros HPQ. induction 1 as [a Ha | effect next _ IH].
  - constructor. auto.
  - constructor. exact IH.
Qed.

Lemma on_settle_returns (P : A → Prop) (Q : B → Prop)
    (t : Task A) (k : Outcome A → Async B) :
  returns_with P t →
  (∀ a c, P a → returns_with Q (k (Returned a) c).2) →
  ∀ c, returns_with Q (on_settle t k c).2.
Proof.
  intros Ht Hk. induction Ht as [a Ha | effect next _ IH]; intros c.
  - apply Hk, Ha.
  - cbn. constructor. intros c'. apply IH.
Qed.

Lemma on_settle_returns_total (Q : B → Prop)
    (t : Task A) (k : Outcome A → Async B) :
  (∀ o c, returns_with Q (k o c).2) →
  ∀ c, returns_with Q (on_settle t k c).2.
Proof.
  intros Hk. induction t as [o | effect next IH]; intros c.
  - apply Hk.
  - cbn. constructor. intros c'. apply IH.
Qed.

Lemma bind_returns (P : A → Prop) (Q : B → Prop)
    (m : Async A) (f : A → Async B) :
  (∀ c, returns_with P (m c).2) →
  (∀ a c, P a → returns_with Q (f a c).2) →
  ∀ c, returns_with Q ((m ≫= f) c).2.
Proof.
  intros Hm Hf c. unfold mbind, Async_bind.
  specialize (Hm c). destruct (m c) as [c' t].
  by apply on_settle_returns with (P := P).
Qed.

Lemma run_task_returns (P : A → Prop) (t : Task A) :
  returns_with P t → ∀ c, ∃ a, (run_task t c).2 = Returned a ∧ P a.
Proof.
  induction 1 as [a Ha | effect next _ IH]; intros c; cbn; eauto.
Qed.

Lemma resume_returns (P : A → Prop) (t : Task A) c :
  returns_with P t → returns_with P (resume t c).2.
Proof. destruct 1 as [a Ha | effect next Hnext]; cbn; [by constructor | done]. Qed.

End Running.

Lemma traced_traced evs1 evs2 c :
  traced evs2 (traced evs1 c) = traced (evs1 ++ evs2) c.
Proof. unfold traced. cbn. by rewrite app_assoc. Qed.

(** ** Tasks in flight *)

Section InFlight.

Context {X A : Type} (Q : X → A → Prop).

Lemma call_all_returns (f : X → Async A) :
  (∀ x c, returns_with (Q x) (f x c).2) →
  ∀ xs c, Forall2 (λ x t, returns_with (Q x) t) xs (call_all (f <$> xs) c).2.
Proof.
  intros Hf xs. induction xs as [| x xs IH]; intros c; cbn; [constructor|].
  specialize (Hf x c). destruct (f x c) as [c1 t].
  specialize (IH c1). destruct (call_all (f <$> xs) c1) as [c2 ts].
  by constructor.
Qed.

Lemma interleave_returns schedule :
  ∀ xs (ts : list (Task A)) c,
    Forall2 (λ x t, returns_with (Q x) t) xs ts →
    Forall2 (λ x t, returns_with (Q x) t) xs (interleave schedule ts c).2.
Proof.
  induction schedule as [| i schedule IH]; intros xs ts c Hts; cbn; [done|].
  destruct (ts !! i) as [t |] eqn:Hi; [| by apply IH].
  destruct (resume t c) as [c' t'] eqn:Hres. apply IH.
  destruct (Forall2_lookup_r _ _ _ _ _ Hts Hi) as (x & Hx & Ht).
  rewrite <- (list_insert_id xs i x Hx).
  apply Forall2_insert; [done|].
  change t' with (c', t').2. rewrite <- Hres. by apply resume_returns.
Qed.

Lemma run_all_returns :
  ∀ xs (ts : list (Task A)) c,
    Forall2 (λ x t, returns_with (Q x) t) xs ts →
    Forall2 (λ x o, ∃ a, o = Returned a ∧ Q x a) xs (run_all ts c).2.
Proof.
  intros xs ts c Hts. revert c.
  induction Hts as [| x t xs ts Ht _ IH]; intros c; cbn; [constructor|].
  destruct (run_task_returns _ _ Ht c) as (a & Ha & HQ).
  destruct (run_task t c) as [c1 o]. cbn in Ha. subst o.
  specialize (IH c1). destruct (run_all ts c1) as [c2 os].
  constructor; eauto.
Qed.

Lemma settle_all_returns schedule xs (ts : list (Task A)) c :
  Forall2 (λ x t, returns_with (Q x) t) xs ts →
  Forall2 (λ x o, ∃ a, o = Returned a ∧ Q x a) xs
    (settle_all schedule ts c).2.
Proof.
  intros Hts. unfold settle_all.
  pose proof (interleave_returns schedule xs ts c Hts) as Hi.
  destruct (interleave schedule ts c) as [c' ts'].
  by apply run_all_returns.
Qed.

Lemma all_fulfilled_returns xs (os : list (Outcome A)) :
  Forall2 (λ x o, ∃ a, o = Returned a ∧ Q x a) xs os →
  ∃ l, all_fulfilled os = Returned l ∧ Forall2 Q xs l.
Proof.
  induction 1 as [| x o xs os (a & -> & Ha) _ (l & Hl & IH)]; cbn.
  - eexists. split; [done | constructor].
  - rewrite Hl. eexists. split; [done | by constructor].
Qed.

End InFlight.

(** ** The resolver of the specification *)

(** A Uri that no rule matches is unresolved. *)
Lemma resolveUri_no_rule uri table :
  Resolver.first_match table uri = None →
  Resolver.resolveUri uri table = Thrown (Err "UnresolvedUriError").
Proof. intros Hnone. unfold Resolver.resolveUri. cbn. by rewrite Hnone. Qed.

(** A rule that sends a Uri to a plugin resolves it at once. *)
Lemma resolveUri_plugin uri table rule plugin :
  Resolver.first_match table uri = Some rule →
  to rule = ToPlugin plugin →
  Resolver.resolveUri uri table = Returned (Some (PluginWeb3Api uri plugin)).
Proof.
  intros Hrule Hto. unfold Resolver.resolveUri. cbn. by rewrite Hrule, Hto.
Qed.

(** ** Objects and the renaming *)

Lemma makeRepeatedUnique_length names :
  length (makeRepeatedUnique names) = length names.
Proof.
  unfold makeRepeatedUnique.
  enough (∀ st, length (foldl makeRepeatedUnique_step st names).2
                = length st.2 + length names) as -> by done.
  induction names as [| name names IH]; intros [counts acc]; cbn; [lia|].
  rewrite IH. destruct (inherited name); cbn; rewrite length_app; cbn; lia.
Qed.

Lemma occurrences_snoc name names n :
  occurrences name (names ++ [n]) =
  occurrences name names + (if decide (n = name) then 1 else 0).
Proof.
  unfold occurrences. rewrite filter_app, length_app. f_equal.
  rewrite filter_cons, filter_nil. by case_decide.
Qed.

Lemma makeRepeatedUnique_step_spec names :
  ∀ earlier counts acc,
    (∀ n, inherited n = false →
          default 0 (counts !! n) = occurrences n earlier) →
    Forall (λ n, inherited n = false) names →
    (foldl makeRepeatedUnique_step (counts, acc) names).2 =
    acc ++ imap (λ i name,
                   suffixed name (occurrences name (earlier ++ take i names)))
             names.
Proof.
  induction names as [| name names IH]; intros earlier counts acc Hcounts Hnames.
  { cbn. by rewrite app_nil_r. }
  apply Forall_cons in Hnames as [Hname Hnames]. cbn [foldl].
  unfold makeRepeatedUnique_step at 2. rewrite Hname.
  rewrite (IH (earlier ++ [name])); [| | done].
  - rewrite <- app_assoc. f_equal. cbn. rewrite app_nil_r, (Hcounts name Hname).
    f_equal.
    + unfold suffixed.
      replace (occurrences name earlier + 1 - 1)
        with (occurrences name earlier) by lia.
      repeat case_bool_decide; (done || lia).
    + apply imap_ext. intros i n _. cbn. by rewrite <- app_assoc.
  - intros n Hn. rewrite occurrences_snoc. case_decide as Heq.
    + subst n. rewrite lookup_insert_eq. cbn. by rewrite (Hcounts name Hname).
    + rewrite lookup_insert_ne by done. rewrite (Hcounts n Hn). lia.
Qed.

(** For names that an object literal does not inherit, the renaming is
    the one the specification describes. *)
Lemma makeRepeatedUnique_rule names :
  Forall (λ n, inherited n = false) names →
  makeRepeatedUnique names = makeRepeatedUnique_spec names.
Proof.
  intros Hnames. unfold makeRepeatedUnique, makeRepeatedUnique_spec.
  by rewrite (makeRepeatedUnique_step_spec names []).
Qed.

(** A name that an object literal inherits is never suffixed. *)
Lemma makeRepeatedUnique_inherited name :
  inherited name = true →
  makeRepeatedUnique [name; name] = [name; name].
Proof.
  intros Hname. unfold makeRepeatedUnique. cbn [foldl].
  unfold makeRepeatedUnique_step. by rewrite !Hname.
Qed.

Section ObjectWrites.

Context {V : Type}.
Implicit Types (o : JsObject.t V) (kvs : list (string * V)).

Lemma get_put o key v : JsObject.get (JsObject.put o key v) key = Some v.
Proof.
  induction o as [| [k w] o IH]; cbn; repeat case_decide; cbn;
    repeat case_decide; try done.
Qed.

Lemma get_put_ne o key key' v :
  key ≠ key' →
  JsObject.get (JsObject.put o key v) key' = JsObject.get o key'.
Proof.
  intros Hne. induction o as [| [k w] o IH]; cbn; repeat case_decide; cbn;
    repeat case_decide; by simplify_eq.
Qed.

Lemma get_writes_other kvs :
  ∀ o key,
    key ∉ kvs.*1 →
    JsObject.get (foldl (λ d kv, JsObject.set d kv.1 kv.2) o kvs) key
    = JsObject.get o key.
Proof.
  induction kvs as [| [k v] kvs IH]; intros o key Hkey; [done|].
  cbn in *. apply not_elem_of_cons in Hkey as [Hne Hkey].
  rewrite IH by done. unfold JsObject.set. case_decide; [done|].
  by apply get_put_ne.
Qed.

(** Writes under pairwise distinct keys, none of them [__proto__],
    are all kept. *)
Lemma get_writes kvs :
  ∀ o i key v,
    NoDup kvs.*1 → "__proto__" ∉ kvs.*1 →
    kvs !! i = Some (key, v) →
    JsObject.get (foldl (λ d kv, JsObject.set d kv.1 kv.2) o kvs) key
    = Some v.
Proof.
  induction kvs as [| [k w] kvs IH]; intros o i key v Hnodup Hproto Hi;
    [done|].
  cbn in *. apply NoDup_cons in Hnodup as [Hk Hnodup].
  apply not_elem_of_cons in Hproto as [Hne Hproto].
  destruct i as [| i]; simplify_eq/=.
  - rewrite get_writes_other by done. unfold JsObject.set.
    case_decide; [done|]. apply get_put.
  - by eapply IH.
Qed.

End ObjectWrites.

(** ** The client *)

Ltac async_unfold :=
  cbv beta iota zeta delta
    [mbind Async_bind mret Async_ret settle throw trace await on_settle
     suspend resume apiCache_get apiCache_set new_Api try_catch try_finally
     fst snd].

Lemma run_settle {A} (o : Outcome A) c : run (settle o) c = (c, o).
Proof. done. Qed.

Lemma run_mret {A} (a : A) c : run (mret a) c = (c, Returned a).
Proof. done. Qed.

Lemma run_throw {A} e c : run (throw (A := A) e) c = (c, Thrown e).
Proof. done. Qed.

Lemma run_trace ev c : run (trace ev) c = (traced [ev] c, Returned tt).
Proof. done. Qed.

Ltac run_simpl :=
  repeat (rewrite ?run_bind, ?run_await, ?run_settle, ?run_mret, ?run_throw,
            ?run_trace, ?run_try_catch, ?run_try_finally, ?traced_traced;
          cbn [app]).

Section ClientProperties.

Context `{CoreJs}.

(** *** [loadWeb3Api] *)

Lemma loadWeb3Api_hit uri c api :
  _apiCache c !! Uri.uri uri = Some api →
  loadWeb3Api uri c =
  (traced [StartSpan "load-web3api"; SetAttribute "uri"; EndSpan] c,
   Settled (Returned api)).
Proof.
  intros Hhit. unfold loadWeb3Api. async_unfold. rewrite Hhit.
  by rewrite !traced_traced.
Qed.

Lemma run_loadWeb3Api_hit uri c api :
  _apiCache c !! Uri.uri uri = Some api →
  run (loadWeb3Api uri) c =
  (traced [StartSpan "load-web3api"; SetAttribute "uri"; EndSpan] c,
   Returned api).
Proof. intros Hhit. unfold run. by rewrite (loadWeb3Api_hit uri c api). Qed.

Lemma loadWeb3Api_miss uri c ctor :
  created_at_call ctor = false →
  _apiCache c !! Uri.uri uri = None →
  resolveUri uri (redirects c) = Returned (Some ctor) →
  ∃ c1 t, loadWeb3Api uri c = (c1, t) ∧ load_in_flight uri ctor t ∧
    resolutions c1 = S (resolutions c) ∧ instances c1 = instances c ∧
    _apiCache c1 = _apiCache c ∧ _config c1 = _config c.
Proof.
  intros Hlater Hmiss Hres. unfold loadWeb3Api, resolveUri_call. async_unfold.
  rewrite Hmiss.
  change (redirects (traced _ (traced _ c))) with (redirects c).
  rewrite Hres, Hlater.
  eexists _, _. split; [reflexivity|]. split; [| done].
  eexists _, _. split; [reflexivity|]. by intros c'.
Qed.

Lemma loadWeb3Api_miss_created uri c ctor :
  created_at_call ctor = true →
  _apiCache c !! Uri.uri uri = None →
  resolveUri uri (redirects c) = Returned (Some ctor) →
  ∃ c1 t, loadWeb3Api uri c = (c1, t) ∧
    load_created uri (mkApi (instances c) ctor) t ∧
    resolutions c1 = S (resolutions c) ∧ instances c1 = S (instances c) ∧
    _apiCache c1 = _apiCache c ∧ _config c1 = _config c.
Proof.
  intros Hnow Hmiss Hres. unfold loadWeb3Api, resolveUri_call. async_unfold.
  rewrite Hmiss.
  change (redirects (traced _ (traced _ c))) with (redirects c).
  rewrite Hres, Hnow.
  eexists _, _. split; [reflexivity|]. split; [| done].
  eexists _, _. split; [reflexivity|]. by intros c'.
Qed.

Lemma loadWeb3Api_unresolved uri c failure :
  _apiCache c !! Uri.uri uri = None →
  resolution_failure uri (redirects c) = Some failure →
  ∃ c', run (loadWeb3Api uri) c = (c', Thrown failure).
Proof.
  intros Hmiss Hfail. unfold resolution_failure in Hfail.
  unfold run, loadWeb3Api, resolveUri_call. async_unfold. rewrite Hmiss.
  change (redirects (traced _ (traced _ c))) with (redirects c).
  destruct (resolveUri uri (redirects c)) as [[ctor |] | e];
    simplify_eq; cbn; eauto.
Qed.

Lemma run_loadWeb3Api_miss uri c ctor :
  _apiCache c !! Uri.uri uri = None →
  resolveUri uri (redirects c) = Returned (Some ctor) →
  ∃ c',
    run (loadWeb3Api uri) c = (c', Returned (mkApi (instances c) ctor)) ∧
    instances c' = S (instances c) ∧
    resolutions c' = S (resolutions c) ∧
    _config c' = _config c ∧
    _apiCache c' = <[Uri.uri uri := mkApi (instances c) ctor]> (_apiCache c).
Proof.
  intros Hmiss Hres. destruct (created_at_call ctor) eqn:Hkind.
  - destruct (loadWeb3Api_miss_created uri c ctor Hkind Hmiss Hres)
      as (c1 & t & Hload & (effect & next & -> & Hstep)
          & Hr & Hn & Hcache & Hcfg).
    destruct (Hstep c1) as (Hnext & Hn' & Hr' & Hcfg' & Hcache').
    exists (effect c1). unfold run. rewrite Hload. cbn. rewrite Hnext. cbn.
    rewrite Hcache in *. repeat split; congruence.
  - destruct (loadWeb3Api_miss uri c ctor Hkind Hmiss Hres)
      as (c1 & t & Hload & (effect & next & -> & Hstep)
          & Hr & Hn & Hcache & Hcfg).
    destruct (Hstep c1) as (Hnext & Hn' & Hr' & Hcfg' & Hcache').
    exists (effect c1). unfold run. rewrite Hload. cbn. rewrite Hnext. cbn.
    rewrite Hn in *. rewrite Hcache in *.
    repeat split; congruence.
Qed.

(** X11.  The part of cache coherence that the cache gives: a second
    [loadWeb3Api] of the same Uri returns the instance of the first
    and creates none. *)
Lemma loadWeb3Api_same_uri uri c ctor :
  _apiCache c !! Uri.uri uri = None →
  resolveUri uri (redirects c) = Returned (Some ctor) →
  ∃ c' api,
    run (a ← loadWeb3Api uri; b ← loadWeb3Api uri; mret (a, b)) c
    = (c', Returned (api, api)) ∧
    instances c' = S (instances c) ∧
    resolutions c' = S (resolutions c).
Proof.
  intros Hmiss Hres.
  destruct (run_loadWeb3Api_miss uri c ctor Hmiss Hres)
    as (c1 & Hrun & Hn & Hr & _ & Hcache).
  rewrite run_bind, Hrun, run_bind.
  rewrite (run_loadWeb3Api_hit uri c1 (mkApi (instances c) ctor))
    by (rewrite Hcache; apply lookup_insert_eq).
  rewrite run_mret. eauto.
Qed.

(** The cache is keyed by the Uri asked for only: a Uri with another
    key is resolved anew and gets an instance of its own, wherever
    the two resolutions end. *)
Lemma loadWeb3Api_other_uri uriA uriB c ctorA ctorB :
  Uri.uri uriA ≠ Uri.uri uriB →
  _apiCache c !! Uri.uri uriA = None →
  _apiCache c !! Uri.uri uriB = None →
  resolveUri uriA (redirects c) = Returned (Some ctorA) →
  resolveUri uriB (redirects c) = Returned (Some ctorB) →
  ∃ c' a b,
    run (a ← loadWeb3Api uriA; b ← loadWeb3Api uriB; mret (a, b)) c
    = (c', Returned (a, b)) ∧
    api_ref a ≠ api_ref b ∧
    instances c' = instances c + 2 ∧
    resolutions c' = resolutions c + 2.
Proof.
  intros Hne HmissA HmissB HresA HresB.
  destruct (run_loadWeb3Api_miss uriA c ctorA HmissA HresA)
    as (c1 & HrunA & Hn1 & Hr1 & Hcfg1 & Hcache1).
  destruct (run_loadWeb3Api_miss uriB c1 ctorB)
    as (c2 & HrunB & Hn2 & Hr2 & _ & _).
  { rewrite Hcache1. by rewrite lookup_insert_ne. }
  { unfold redirects. by rewrite Hcfg1. }
  rewrite run_bind, HrunA, run_bind, HrunB, run_mret.
  eexists _, _, _. split; [done|]. cbn. repeat split; lia.
Qed.

(** C2, as the code has it.  When the Uris A, B and C of a chain are
    uncached and their resolutions all end in the same implementation,
    [loadWeb3Api(A)], [loadWeb3Api(B)] and [loadWeb3Api(C)] each
    resolve and each create an instance: the three calls return three
    different instances, and three resolutions and three
    instantiations have happened. *)
Theorem redirect_chain_instances uriA uriB uriC c ctor :
  Uri.uri uriA ≠ Uri.uri uriB →
  Uri.uri uriA ≠ Uri.uri uriC →
  Uri.uri uriB ≠ Uri.uri uriC →
  _apiCache c !! Uri.uri uriA = None →
  _apiCache c !! Uri.uri uriB = None →
  _apiCache c !! Uri.uri uriC = None →
  resolveUri uriA (redirects c) = Returned (Some ctor) →
  resolveUri uriB (redirects c) = Returned (Some ctor) →
  resolveUri uriC (redirects c) = Returned (Some ctor) →
  ∃ c',
    run (a ← loadWeb3Api uriA;
         b ← loadWeb3Api uriB;
         c ← loadWeb3Api uriC;
         mret [a; b; c]) c
    = (c', Returned [mkApi (instances c) ctor;
                     mkApi (instances c + 1) ctor;
                     mkApi (instances c + 2) ctor]) ∧
    resolutions c' = resolutions c + 3 ∧
    instances c' = instances c + 3.
Proof.
  intros HAB HAC HBC HmissA HmissB HmissC HresA HresB HresC.
  destruct (run_loadWeb3Api_miss uriA c ctor HmissA HresA)
    as (c1 & HrunA & Hn1 & Hr1 & Hcfg1 & Hcache1).
  destruct (run_loadWeb3Api_miss uriB c1 ctor)
    as (c2 & HrunB & Hn2 & Hr2 & Hcfg2 & Hcache2).
  { rewrite Hcache1. by rewrite lookup_insert_ne. }
  { unfold redirects. by rewrite Hcfg1. }
  destruct (run_loadWeb3Api_miss uriC c2 ctor)
    as (c3 & HrunC & Hn3 & Hr3 & _ & _).
  { rewrite Hcache2, Hcache1. by rewrite !lookup_insert_ne. }
  { unfold redirects. by rewrite Hcfg2, Hcfg1. }
  rewrite run_bind, HrunA, run_bind, HrunB, run_bind, HrunC, run_mret.
  exists c3. split; [| lia].
  do 4 f_equal; [| f_equal]; f_equal; lia.
Qed.

(** *** Calls of [loadWeb3Api] in flight *)

Lemma settled_refs_settle (ts : list (Task Api)) i effect next api :
  ts !! i = Some (Pending effect next) →
  settled_refs (<[i := Settled (Returned api)]> ts)
  ≡ₚ api_ref api :: settled_refs ts.
Proof.
  revert i. induction ts as [| t ts IH]; intros [| i] Hi; simplify_eq/=.
  - done.
  - unfold settled_refs in *. cbn.
    destruct t as [[a | e] | eff nxt]; cbn; rewrite IH by done;
      [apply Permutation_swap | done | done].
Qed.

Lemma pending_count_settle {A} (ts : list (Task A)) i effect next o :
  ts !! i = Some (Pending effect next) →
  pending_count ts = S (pending_count (<[i := Settled o]> ts)).
Proof.
  revert i. induction ts as [| t ts IH]; intros [| i] Hi; simplify_eq/=.
  - done.
  - destruct t; rewrite (IH i) by done; done.
Qed.

Section Loads.

Variables (uri : Uri.t) (ctor : ApiCtor).

Local Abbreviation loading :=
  (λ t : Task Api,
     load_in_flight uri ctor t ∨ ∃ api, t = Settled (Returned api)).

Lemma interleave_loads schedule :
  ∀ ts c,
    Forall loading ts →
    ∃ k c' ts',
      interleave schedule ts c = (c', ts') ∧
      Forall loading ts' ∧
      length ts' = length ts ∧
      resolutions c' = resolutions c ∧
      instances c' = instances c + k ∧
      pending_count ts = pending_count ts' + k ∧
      settled_refs ts' ≡ₚ settled_refs ts ++ seq (instances c) k.
Proof.
  induction schedule as [| i schedule IH]; intros ts c Hts; cbn.
  { exists 0, c, ts. rewrite app_nil_r. repeat split; auto; lia. }
  destruct (ts !! i) as [t |] eqn:Hi; [| by apply IH].
  pose proof (proj1 (Forall_lookup _ _) Hts i t Hi) as Ht. cbn in Ht.
  destruct Ht as [(effect & next & -> & Hstep) | [api ->]].
  - destruct (Hstep c) as (Hnext & Hinst & Hres & _ & _). cbn.
    rewrite Hnext.
    destruct (IH (<[i := Settled (Returned (mkApi (instances c) ctor))]> ts)
                (effect c)) as (k & c' & ts' & -> & Hts' & Hlen & Hr & Hn & Hp & Hrefs).
    { apply Forall_insert; [done|]. right. eauto. }
    exists (S k), c', ts'. split; [done|]. split; [done|].
    rewrite length_insert in Hlen.
    rewrite (pending_count_settle ts i effect next
               (Returned (mkApi (instances c) ctor)) Hi).
    repeat split; try lia.
    rewrite Hrefs, Hinst, settled_refs_settle by done. cbn.
    by rewrite Permutation_middle.
  - cbn. rewrite list_insert_id by done. by apply IH.
Qed.

Lemma run_all_loads :
  ∀ ts c,
    Forall loading ts →
    ∃ apis c',
      run_all ts c = (c', Returned <$> apis) ∧
      length apis = length ts ∧
      resolutions c' = resolutions c ∧
      instances c' = instances c + pending_count ts ∧
      api_ref <$> apis
      ≡ₚ settled_refs ts ++ seq (instances c) (pending_count ts).
Proof.
  induction ts as [| t ts IH]; intros c Hts.
  { exists [], c. cbn. repeat split; auto. }
  apply Forall_cons in Hts as [Ht Hts]. cbn in Ht.
  destruct Ht as [(effect & next & -> & Hstep) | [api ->]].
  - destruct (Hstep c) as (Hnext & Hinst & Hres & _ & _). cbn.
    rewrite Hnext. cbn.
    destruct (IH (effect c) Hts) as (apis & c' & -> & Hlen & Hr & Hn & Hrefs).
    exists (mkApi (instances c) ctor :: apis), c'. cbn.
    split; [done|]. repeat split; try lia.
    rewrite Hrefs, Hinst. unfold settled_refs. cbn.
    by rewrite Permutation_middle.
  - cbn.
    destruct (IH c Hts) as (apis & c' & -> & Hlen & Hr & Hn & Hrefs).
    exists (api :: apis), c'. cbn.
    split; [done|]. repeat split; try lia.
    unfold settled_refs in *. cbn. by rewrite Hrefs.
Qed.

Lemma call_all_loads n :
  created_at_call ctor = false →
  ∀ c,
    _apiCache c !! Uri.uri uri = None →
    resolveUri uri (redirects c) = Returned (Some ctor) →
    ∃ c1 ts,
      call_all (replicate n (loadWeb3Api uri)) c = (c1, ts) ∧
      Forall (load_in_flight uri ctor) ts ∧
      length ts = n ∧
      resolutions c1 = resolutions c + n ∧
      instances c1 = instances c ∧
      _apiCache c1 = _apiCache c.
Proof.
  intros Hlater. induction n as [| n IH]; intros c Hmiss Hres; cbn.
  { exists c, []. repeat split; auto. }
  destruct (loadWeb3Api_miss uri c ctor Hlater Hmiss Hres)
    as (c1 & t & -> & Ht & Hr1 & Hn1 & Hcache & Hconfig).
  destruct (IH c1) as (c2 & ts & -> & Hts & Hlen & Hr2 & Hn2 & Hcache2).
  { by rewrite Hcache. }
  { unfold redirects. by rewrite Hconfig. }
  exists c2, (t :: ts). cbn. repeat split; auto; (lia || congruence).
Qed.

Lemma in_flight_refs (ts : list (Task Api)) :
  Forall (load_in_flight uri ctor) ts →
  settled_refs ts = [] ∧ pending_count ts = length ts.
Proof.
  induction 1 as [| t ts (effect & next & -> & _) _ [IH1 IH2]]; [done|].
  unfold settled_refs in *. cbn. by rewrite IH1, IH2.
Qed.

Local Abbreviation loading_ctor :=
  (λ t : Task Api,
     load_in_flight uri ctor t ∨ ∃ ref, t = Settled (Returned (mkApi ref ctor))).

Local Abbreviation cache_after c c' :=
  ((∀ key, key ≠ Uri.uri uri → _apiCache c' !! key = _apiCache c !! key) ∧
   (instances c' = instances c ∧
    _apiCache c' !! Uri.uri uri = _apiCache c !! Uri.uri uri
    ∨ instances c < instances c' ∧
      _apiCache c' !! Uri.uri uri = Some (mkApi (instances c' - 1) ctor))).

Lemma interleave_loads_cache schedule :
  ∀ ts c,
    Forall loading_ctor ts →
    ∃ c' ts',
      interleave schedule ts c = (c', ts') ∧
      Forall loading_ctor ts' ∧
      cache_after c c'.
Proof.
  induction schedule as [| i schedule IH]; intros ts c Hts; cbn.
  { exists c, ts. repeat split; auto. }
  destruct (ts !! i) as [t |] eqn:Hi; [| by apply IH].
  pose proof (proj1 (Forall_lookup _ _) Hts i t Hi) as Ht. cbn in Ht.
  destruct Ht as [(effect & next & -> & Hstep) | [ref ->]].
  - destruct (Hstep c) as (Hnext & Hinst & _ & _ & Hcache). cbn.
    rewrite Hnext.
    destruct (IH (<[i := Settled (Returned (mkApi (instances c) ctor))]> ts)
                (effect c)) as (c' & ts' & -> & Hts' & Hother & Hkey).
    { apply Forall_insert; [done|]. right. eauto. }
    exists c', ts'. split; [done|]. split; [done|]. split.
    + intros key Hne. rewrite Hother, Hcache by done.
      by rewrite lookup_insert_ne.
    + right. destruct Hkey as [[Hn Hk] | [Hn Hk]].
      * split; [lia|]. rewrite Hk, Hcache, lookup_insert_eq, Hn, Hinst.
        do 2 f_equal. lia.
      * split; [lia | done].
  - cbn. rewrite list_insert_id by done. by apply IH.
Qed.

Lemma run_all_loads_cache :
  ∀ ts c,
    Forall loading_ctor ts →
    ∃ c' apis,
      run_all ts c = (c', Returned <$> apis) ∧
      Forall (λ api, api_ctor api = ctor) apis ∧
      cache_after c c'.
Proof.
  induction ts as [| t ts IH]; intros c Hts.
  { exists c, []. cbn. repeat split; auto. }
  apply Forall_cons in Hts as [Ht Hts]. cbn in Ht.
  destruct Ht as [(effect & next & -> & Hstep) | [ref ->]].
  - destruct (Hstep c) as (Hnext & Hinst & _ & _ & Hcache). cbn.
    rewrite Hnext. cbn.
    destruct (IH (effect c) Hts) as (c' & apis & -> & Hctors & Hother & Hkey).
    exists c', (mkApi (instances c) ctor :: apis). cbn.
    split; [done|]. split; [by constructor|]. split.
    + intros key Hne. rewrite Hother, Hcache by done.
      by rewrite lookup_insert_ne.
    + right. destruct Hkey as [[Hn Hk] | [Hn Hk]].
      * split; [lia|]. rewrite Hk, Hcache, lookup_insert_eq, Hn, Hinst.
        do 2 f_equal. lia.
      * split; [lia | done].
  - cbn.
    destruct (IH c Hts) as (c' & apis & -> & Hctors & Hafter).
    exists c', (mkApi ref ctor :: apis). cbn.
    split; [done|]. split; [by constructor | done].
Qed.

End Loads.

(** Calls whose instance is created later, in the turn that stores
    it. *)
Lemma concurrent_loads_deferred n schedule uri c ctor :
  created_at_call ctor = false →
  _apiCache c !! Uri.uri uri = None →
  resolveUri uri (redirects c) = Returned (Some ctor) →
  ∃ c' apis,
    concurrent_loads n schedule uri c = (c', Returned <$> apis) ∧
    length apis = n ∧
    resolutions c' = resolutions c + n ∧
    instances c' = instances c + n ∧
    api_ref <$> apis ≡ₚ seq (instances c) n ∧
    (∀ key, key ≠ Uri.uri uri → _apiCache c' !! key = _apiCache c !! key) ∧
    (0 < n → ∃ api, api ∈ apis ∧ _apiCache c' !! Uri.uri uri = Some api).
Proof.
  intros Hlater Hmiss Hres. unfold concurrent_loads.
  destruct (call_all_loads uri ctor n Hlater c Hmiss Hres)
    as (c1 & ts & Hcalls & Hts & Hlen & Hr1 & Hn1 & Hcache1).
  rewrite Hcalls.
  destruct (in_flight_refs uri ctor ts Hts) as [Hrefs Hpending].
  assert (Forall (λ t, load_in_flight uri ctor t
                       ∨ ∃ ref, t = Settled (Returned (mkApi ref ctor))) ts)
    as Hts0 by (eapply Forall_impl; [exact Hts | by left]).
  assert (Forall (λ t, load_in_flight uri ctor t
                       ∨ ∃ api, t = Settled (Returned api)) ts)
    as Hts1 by (eapply Forall_impl; [exact Hts | by left]).
  unfold settle_all.
  destruct (interleave_loads uri ctor schedule ts c1 Hts1)
    as (k & c2 & ts2 & Hinter & Hts2 & Hlen2 & Hr2 & Hn2 & Hp2 & Hrefs2).
  destruct (interleave_loads_cache uri ctor schedule ts c1 Hts0)
    as (c2' & ts2' & Hinter' & Hts2' & Hother2 & Hkey2).
  assert (c2' = c2 ∧ ts2' = ts2) as [-> ->] by (split; congruence).
  clear Hinter'. rewrite Hinter.
  destruct (run_all_loads uri ctor ts2 c2 Hts2)
    as (apis & c3 & Hrun & Hlen3 & Hr3 & Hn3 & Hrefs3).
  destruct (run_all_loads_cache uri ctor ts2 c2 Hts2')
    as (c3' & apis' & Hrun' & Hctors & Hother3 & Hkey3).
  rewrite Hrun in Hrun'. injection Hrun' as <- Happs.
  assert (Inj (=) (=) (@Returned Api)) as Hinj by (by intros ?? [=]).
  apply (inj (fmap Returned)) in Happs as <-.
  exists c3, apis. split; [done|].
  assert (api_ref <$> apis ≡ₚ seq (instances c) n) as Hperm.
  { rewrite Hrefs3, Hrefs2, Hrefs, Hn2, Hn1. cbn.
    replace n with (k + pending_count ts2) by lia.
    by rewrite seq_app. }
  split; [lia|]. split; [lia|]. split; [lia|]. split; [done|]. split.
  { intros key Hne. rewrite Hother3, Hother2 by done. by rewrite Hcache1. }
  intros Hn.
  assert (_apiCache c3 !! Uri.uri uri
          = Some (mkApi (instances c + n - 1) ctor)) as Hfinal.
  { destruct Hkey3 as [[Hsame Hk3] | [Hgrow Hk3]].
    - destruct Hkey2 as [[Hsame2 Hk2] | [Hgrow2 Hk2]]; [lia|].
      rewrite Hk3, Hk2. do 2 f_equal. lia.
    - rewrite Hk3. do 2 f_equal. lia. }
  exists (mkApi (instances c + n - 1) ctor). split; [| done].
  assert (instances c + n - 1 ∈ api_ref <$> apis) as Hin.
  { rewrite Hperm, elem_of_seq. lia. }
  apply list_elem_of_fmap in Hin as (api & Href & Hin).
  pose proof (proj1 (Forall_forall _ _) Hctors api Hin) as Hctor.
  destruct api as [ref ctor']. cbn in *. by subst.
Qed.

(** Calls whose instance exists when they suspend: what is left to
    their next turn is to store it. *)
Section CreatedLoads.

Variable uri : Uri.t.

Local Abbreviation arriving :=
  (λ (api : Api) (t : Task Api),
     load_created uri api t ∨ t = Settled (Returned api)).

Lemma interleave_created schedule :
  ∀ apis ts c,
    Forall2 arriving apis ts →
    ∃ c' ts',
      interleave schedule ts c = (c', ts') ∧
      Forall2 arriving apis ts' ∧
      resolutions c' = resolutions c ∧
      instances c' = instances c ∧
      (∀ key, key ≠ Uri.uri uri → _apiCache c' !! key = _apiCache c !! key) ∧
      (pending_count ts' = pending_count ts ∧
       _apiCache c' !! Uri.uri uri = _apiCache c !! Uri.uri uri
       ∨ ∃ api, api ∈ apis ∧ _apiCache c' !! Uri.uri uri = Some api).
Proof.
  induction schedule as [| i schedule IH]; intros apis ts c Hts; cbn.
  { exists c, ts. repeat split; auto. }
  destruct (ts !! i) as [t |] eqn:Hi; [| by apply IH].
  destruct (Forall2_lookup_r _ _ _ _ _ Hts Hi) as (api & Hapi & Ht).
  destruct Ht as [(effect & next & -> & Hstep) | ->].
  - destruct (Hstep c) as (Hnext & Hinst & Hres & _ & Hcache). cbn.
    rewrite Hnext.
    destruct (IH apis (<[i := Settled (Returned api)]> ts) (effect c))
      as (c' & ts' & -> & Hts' & Hr & Hn & Hother & Hkey).
    { rewrite <- (list_insert_id apis i api Hapi).
      apply Forall2_insert; [done|]. by right. }
    exists c', ts'. split; [done|]. split; [done|].
    split; [congruence|]. split; [congruence|]. split.
    + intros key Hne. rewrite Hother, Hcache by done.
      by rewrite lookup_insert_ne.
    + right. destruct Hkey as [[_ Hk] | Hk]; [| done].
      exists api. split; [by eapply list_elem_of_lookup_2|].
      by rewrite Hk, Hcache, lookup_insert_eq.
  - cbn. rewrite list_insert_id by done. by apply IH.
Qed.

Lemma run_all_created :
  ∀ apis ts c,
    Forall2 arriving apis ts →
    ∃ c',
      run_all ts c = (c', Returned <$> apis) ∧
      resolutions c' = resolutions c ∧
      instances c' = instances c ∧
      (∀ key, key ≠ Uri.uri uri → _apiCache c' !! key = _apiCache c !! key) ∧
      (pending_count ts = 0 ∧
       _apiCache c' !! Uri.uri uri = _apiCache c !! Uri.uri uri
       ∨ ∃ api, api ∈ apis ∧ _apiCache c' !! Uri.uri uri = Some api).
Proof.
  intros apis ts c Hts. revert c.
  induction Hts as [| api t apis ts Ht Hts IH]; intros c.
  { exists c. cbn. repeat split; auto. }
  destruct Ht as [(effect & next & -> & Hstep) | ->].
  - destruct (Hstep c) as (Hnext & Hinst & Hres & _ & Hcache). cbn.
    rewrite Hnext. cbn.
    destruct (IH (effect c)) as (c' & -> & Hr & Hn & Hother & Hkey).
    exists c'. split; [done|]. split; [congruence|]. split; [congruence|].
    split.
    + intros key Hne. rewrite Hother, Hcache by done.
      by rewrite lookup_insert_ne.
    + right. destruct Hkey as [[_ Hk] | (api' & Hin & Hk)].
      * exists api. split; [apply list_elem_of_here|].
        by rewrite Hk, Hcache, lookup_insert_eq.
      * exists api'. split; [by apply list_elem_of_further | done].
  - cbn. destruct (IH c) as (c' & -> & Hr & Hn & Hother & Hkey).
    exists c'. split; [done|]. split; [done|]. split; [done|].
    split; [done|].
    destruct Hkey as [Hk | (api' & Hin & Hk)]; [by left | right].
    exists api'. split; [by apply list_elem_of_further | done].
Qed.

Lemma call_all_created ctor n :
  created_at_call ctor = true →
  ∀ c,
    _apiCache c !! Uri.uri uri = None →
    resolveUri uri (redirects c) = Returned (Some ctor) →
    ∃ c1 ts,
      call_all (replicate n (loadWeb3Api uri)) c = (c1, ts) ∧
      Forall2 (load_created uri)
        ((λ ref, mkApi ref ctor) <$> seq (instances c) n) ts ∧
      pending_count ts = n ∧
      resolutions c1 = resolutions c + n ∧
      instances c1 = instances c + n ∧
      _apiCache c1 = _apiCache c.
Proof.
  intros Hnow. induction n as [| n IH]; intros c Hmiss Hres; cbn.
  { exists c, []. repeat split; auto. }
  destruct (loadWeb3Api_miss_created uri c ctor Hnow Hmiss Hres)
    as (c1 & t & -> & Ht & Hr1 & Hn1 & Hcache & Hconfig).
  destruct (IH c1) as (c2 & ts & -> & Hts & Hp & Hr2 & Hn2 & Hcache2).
  { by rewrite Hcache. }
  { unfold redirects. by rewrite Hconfig. }
  exists c2, (t :: ts). split; [done|]. split.
  { constructor; [done|]. by rewrite Hn1 in Hts. }
  destruct Ht as (effect & next & -> & _). cbn.
  repeat split; (lia || congruence).
Qed.

Lemma concurrent_loads_created n schedule c ctor :
  created_at_call ctor = true →
  _apiCache c !! Uri.uri uri = None →
  resolveUri uri (redirects c) = Returned (Some ctor) →
  ∃ c' apis,
    concurrent_loads n schedule uri c = (c', Returned <$> apis) ∧
    length apis = n ∧
    resolutions c' = resolutions c + n ∧
    instances c' = instances c + n ∧
    api_ref <$> apis ≡ₚ seq (instances c) n ∧
    (∀ key, key ≠ Uri.uri uri → _apiCache c' !! key = _apiCache c !! key) ∧
    (0 < n → ∃ api, api ∈ apis ∧ _apiCache c' !! Uri.uri uri = Some api).
Proof.
  intros Hnow Hmiss Hres. unfold concurrent_loads.
  destruct (call_all_created ctor n Hnow c Hmiss Hres)
    as (c1 & ts & -> & Hts & Hp & Hr1 & Hn1 & Hcache1).
  unfold settle_all.
  destruct (interleave_created schedule
              ((λ ref, mkApi ref ctor) <$> seq (instances c) n) ts c1)
    as (c2 & ts2 & -> & Hts2 & Hr2 & Hn2 & Hother2 & Hkey2).
  { eapply Forall2_impl; [exact Hts|]. intros api t Ht. by left. }
  destruct (run_all_created _ ts2 c2 Hts2)
    as (c3 & -> & Hr3 & Hn3 & Hother3 & Hkey3).
  exists c3, ((λ ref, mkApi ref ctor) <$> seq (instances c) n).
  split; [done|].
  split; [by rewrite length_fmap, length_seq|].
  split; [lia|]. split; [lia|]. split.
  { rewrite <- list_fmap_compose.
    rewrite (list_fmap_ext _ id (seq (instances c) n)) by done.
    by rewrite list_fmap_id. }
  split.
  { intros key Hne. rewrite Hother3, Hother2 by done. by rewrite Hcache1. }
  intros Hpos. destruct Hkey3 as [[Hp3 Hk3] | Hk3]; [| done].
  destruct Hkey2 as [[Hp2 Hk2] | (api & Hin & Hk2)]; [lia|].
  exists api. split; [done|]. by rewrite Hk3.
Qed.

End CreatedLoads.

(** [n] calls of [loadWeb3Api] made in one turn for the same uncached
    Uri, whenever the instances are created. *)
Lemma concurrent_loads_outcome n schedule uri c ctor :
  _apiCache c !! Uri.uri uri = None →
  resolveUri uri (redirects c) = Returned (Some ctor) →
  ∃ c' apis,
    concurrent_loads n schedule uri c = (c', Returned <$> apis) ∧
    length apis = n ∧
    resolutions c' = resolutions c + n ∧
    instances c' = instances c + n ∧
    api_ref <$> apis ≡ₚ seq (instances c) n ∧
    (∀ key, key ≠ Uri.uri uri → _apiCache c' !! key = _apiCache c !! key) ∧
    (0 < n → ∃ api, api ∈ apis ∧ _apiCache c' !! Uri.uri uri = Some api).
Proof.
  intros Hmiss Hres. destruct (created_at_call ctor) eqn:Hkind.
  - by apply (concurrent_loads_created uri n schedule c ctor).
  - by apply (concurrent_loads_deferred n schedule uri c ctor).
Qed.

(** C3, as the code has it.  [n] calls of [loadWeb3Api] made in one
    turn for the same Uri, uncached and resolving to an
    implementation, make [n] calls of [resolveUri] and create [n]
    instances, whatever the order in which their turns then run:
    each call returns an instance of its own, and no call waits for
    the resolution another has started. *)
Theorem concurrent_loads_resolve_each n schedule uri c ctor :
  _apiCache c !! Uri.uri uri = None →
  resolveUri uri (redirects c) = Returned (Some ctor) →
  ∃ c' apis,
    concurrent_loads n schedule uri c = (c', Returned <$> apis) ∧
    length apis = n ∧
    resolutions c' = resolutions c + n ∧
    instances c' = instances c + n ∧
    api_ref <$> apis ≡ₚ seq (instances c) n.
Proof.
  intros Hmiss Hres.
  destruct (concurrent_loads_outcome n schedule uri c ctor Hmiss Hres)
    as (c' & apis & Hrun & Hlen & Hr & Hn & Hrefs & _).
  by exists c', apis.
Qed.

(** *** [invoke] *)

Lemma invoke_returns options c : never_throws (invoke options c).2.
Proof.
  unfold invoke, try_finally.
  destruct (try_catch _ _ c) as [c' t] eqn:Htry.
  apply on_settle_returns with (P := λ _, True).
  - change t with (c', t).2. rewrite <- Htry. unfold try_catch.
    destruct (invoke_body options c) as [c0 t0].
    apply on_settle_returns_total. intros [a | e] c1; by constructor.
  - intros a c1 _. by constructor.
Qed.

Lemma run_invoke options c :
  run (invoke options) c =
  match run (invoke_body options) c with
  | (c1, Returned result) => (endSpan c1, Returned result)
  | (c1, Thrown e) =>
      (endSpan (traced [RecordException e] c1),
       Returned (mkInvokeApiResult None (Some e)))
  end.
Proof.
  unfold invoke. rewrite run_try_finally, run_try_catch.
  by destruct (run (invoke_body options) c) as [c1 [result | e]].
Qed.

Lemma run_invoke_body_invalid_uri options c e :
  new_Uri (io_uri options) = Thrown e →
  run (invoke_body options) c = (c, Thrown e).
Proof. intros Huri. unfold invoke_body. run_simpl. by rewrite Huri. Qed.

Lemma run_invoke_body_unresolved options uri c failure :
  new_Uri (io_uri options) = Returned uri →
  _apiCache c !! Uri.uri uri = None →
  resolution_failure uri (redirects c) = Some failure →
  ∃ c', run (invoke_body options) c = (c', Thrown failure).
Proof.
  intros Huri Hmiss Hfail. unfold invoke_body. run_simpl. rewrite Huri.
  run_simpl.
  destruct (loadWeb3Api_unresolved uri
              (traced [StartSpan "invoke"; SetAttribute "options"] c)
              failure Hmiss Hfail) as [c' ->].
  eauto.
Qed.

Lemma run_invoke_body_dispatch options uri c api :
  new_Uri (io_uri options) = Returned uri →
  _apiCache c !! Uri.uri uri = Some api →
  run (invoke_body options) c =
  run (Api_invoke api
         (mkInvokeApiOptions uri (io_module options) (method options)
            (input options) (resultFilter options) (decode options)))
    (traced [StartSpan "invoke"; SetAttribute "options";
             StartSpan "load-web3api"; SetAttribute "uri"; EndSpan;
             AddEvent "load-web3api"] c).
Proof.
  intros Huri Hhit. unfold invoke_body. run_simpl. rewrite Huri.
  run_simpl. rewrite (run_loadWeb3Api_hit uri _ api) by done.
  by run_simpl.
Qed.

Lemma run_invoke_body_resolved options uri c ctor :
  new_Uri (io_uri options) = Returned uri →
  _apiCache c !! Uri.uri uri = None →
  resolveUri uri (redirects c) = Returned (Some ctor) →
  ∃ c1,
    run (invoke_body options) c =
      run (Api_invoke (mkApi (instances c) ctor)
             (mkInvokeApiOptions uri (io_module options) (method options)
                (input options) (resultFilter options) (decode options)))
        c1 ∧
    _apiCache c1 = <[Uri.uri uri := mkApi (instances c) ctor]> (_apiCache c) ∧
    _config c1 = _config c ∧
    resolutions c1 = S (resolutions c) ∧
    instances c1 = S (instances c).
Proof.
  intros Huri Hmiss Hres. unfold invoke_body. run_simpl. rewrite Huri.
  run_simpl.
  destruct (run_loadWeb3Api_miss uri
              (traced [StartSpan "invoke"; SetAttribute "options"] c) ctor
              Hmiss Hres) as (c' & -> & Hn & Hr & Hcfg & Hcache).
  run_simpl. eexists. split; [reflexivity|]. cbn in *. auto.
Qed.

(** C1. Whatever the options and the state of the client, [invoke]
    returns a result and never raises, in whatever states its turns
    run.  A failure at any stage of its [try] block is the [error] of
    the result returned, whose [data] is absent: the failure of the
    Uri constructor on the Uri of the options; for a valid Uri without
    a cached implementation, the failure of the resolution in
    [loadWeb3Api]; and, for an implementation that is cached or has
    just been resolved and stored, what its [invoke] throws -- while
    what that [invoke] returns is returned as it is. *)
Theorem invoke_never_raises options c :
  never_throws (invoke options c).2 ∧
  (∃ c' result, run (invoke options) c = (c', Returned result)) ∧
  (run (invoke options) c).2 =
    match (run (invoke_body options) c).2 with
    | Returned result => Returned result
    | Thrown e => Returned (mkInvokeApiResult None (Some e))
    end ∧
  (∀ e,
     new_Uri (io_uri options) = Thrown e →
     (run (invoke options) c).2 =
     Returned (mkInvokeApiResult None (Some e))) ∧
  (∀ uri,
     new_Uri (io_uri options) = Returned uri →
     (∀ failure,
        _apiCache c !! Uri.uri uri = None →
        resolution_failure uri (redirects c) = Some failure →
        (run (invoke options) c).2 =
        Returned (mkInvokeApiResult None (Some failure))) ∧
     (∀ api,
        _apiCache c !! Uri.uri uri = Some api →
        (run (invoke options) c).2 =
        match
          (run (Api_invoke api
                  (mkInvokeApiOptions uri (io_module options)
                     (method options) (input options)
                     (resultFilter options) (decode options)))
             (traced [StartSpan "invoke"; SetAttribute "options";
                      StartSpan "load-web3api"; SetAttribute "uri"; EndSpan;
                      AddEvent "load-web3api"] c)).2
        with
        | Returned result => Returned result
        | Thrown e => Returned (mkInvokeApiResult None (Some e))
        end) ∧
     (∀ ctor,
        _apiCache c !! Uri.uri uri = None →
        resolveUri uri (redirects c) = Returned (Some ctor) →
        ∃ c1,
          _apiCache c1 !! Uri.uri uri = Some (mkApi (instances c) ctor) ∧
          (run (invoke options) c).2 =
          match
            (run (Api_invoke (mkApi (instances c) ctor)
                    (mkInvokeApiOptions uri (io_module options)
                       (method options) (input options)
                       (resultFilter options) (decode options)))
               c1).2
          with
          | Returned result => Returned result
          | Thrown e => Returned (mkInvokeApiResult None (Some e))
          end)).
Proof.
  split; [apply invoke_returns|]. rewrite run_invoke.
  split; [destruct (run (invoke_body options) c) as [c1 [result | e]]; eauto|].
  split; [by destruct (run (invoke_body options) c) as [c1 [result | e]]|].
  split.
  { intros e Huri.
    by rewrite (run_invoke_body_invalid_uri options c e Huri). }
  intros uri Huri. split; [| split].
  - intros failure Hmiss Hfail.
    by destruct (run_invoke_body_unresolved options uri c failure
                   Huri Hmiss Hfail) as [c' ->].
  - intros api Hhit.
    rewrite (run_invoke_body_dispatch options uri c api Huri Hhit).
    by destruct (run _ _) as [c1 [result | e]].
  - intros ctor Hmiss Hres.
    destruct (run_invoke_body_resolved options uri c ctor Huri Hmiss Hres)
      as (c1 & -> & Hcache & _).
    exists c1. split; [by rewrite Hcache, lookup_insert_eq|].
    by destruct (run _ c1) as [c2 [result | e]].
Qed.

(** C7. When the Uri of the options has no cached implementation and
    its resolution finds none (the resolver fails, or returns
    nothing and [loadWeb3Api] throws), [invoke] returns a result
    whose [error] is that failure and whose [data] is absent. *)
Theorem invoke_unresolved_uri options uri c failure :
  new_Uri (io_uri options) = Returned uri →
  _apiCache c !! Uri.uri uri = None →
  resolution_failure uri (redirects c) = Some failure →
  ∃ c', run (invoke options) c =
        (c', Returned (mkInvokeApiResult None (Some failure))).
Proof.
  intros Huri Hmiss Hfail. rewrite run_invoke.
  destruct (run_invoke_body_unresolved options uri c failure
              Huri Hmiss Hfail) as [c' ->].
  eauto.
Qed.

(** *** The constructor *)

(** C8. The redirects of a constructed client are the sanitized
    redirects of its configuration followed by the default
    redirects; so, for any way of matching, the first match among the
    sanitized user redirects is the first match in the whole
    table. *)
Theorem redirects_user_then_default config c :
  new_Web3ApiClient config = Returned c →
  ∃ sanitized,
    sanitizeUriRedirects (config_redirects config) = Returned sanitized ∧
    redirects c = sanitized ++ getDefaultRedirects ∧
    ∀ (matching : UriRedirect Uri.t → bool) rule,
      List.find matching sanitized = Some rule →
      List.find matching (redirects c) = Some rule.
Proof.
  unfold new_Web3ApiClient. intros Hnew.
  destruct (sanitizeUriRedirects (config_redirects config))
    as [sanitized | e]; simplify_eq.
  exists sanitized. split; [done|]. split; [done|].
  intros matching rule. cbn. induction sanitized as [| r rest IH]; [done|].
  cbn. destruct (matching r); auto.
Qed.

(** *** [query] *)

Lemma query_invocation_returns invocation c :
  returns_with (λ tagged, tagged.1 = method invocation)
    (query_invocation invocation c).2.
Proof.
  unfold query_invocation.
  apply bind_returns with (P := λ _, True).
  - intros c'. apply invoke_returns.
  - intros result c' _. by constructor.
Qed.

Lemma run_Promise_all {A} schedule (ms : list (Async A)) c :
  run (Promise_all schedule ms) c =
  let '(c1, ts) := call_all ms c in
  let '(c2, os) := settle_all schedule ts c1 in
  (c2, all_fulfilled os).
Proof.
  unfold run, Promise_all. destruct (call_all ms c) as [c1 ts]. cbn.
  by destruct (settle_all schedule ts c1) as [c2 os].
Qed.

(** The parallel invocations of a query all return, tagged with the
    methods of the compiled invocations, in their order. *)
Lemma settled_invocations_total schedule options c invokeOptions :
  query_compile options = Returned invokeOptions →
  ∃ invocations,
    settled_invocations schedule options c = Some invocations ∧
    invocations.*1 = method <$> invokeOptions.
Proof.
  intros Hcompile. unfold settled_invocations. rewrite Hcompile.
  pose proof (call_all_returns (λ io tagged, tagged.1 = method io)
                query_invocation query_invocation_returns invokeOptions
                (traced [StartSpan "query"; SetAttribute "options"] c))
    as Hts.
  destruct (call_all _ _) as [c1 ts]. cbn in Hts.
  apply (settle_all_returns _ schedule _ _ c1) in Hts.
  apply all_fulfilled_returns in Hts as (invocations & -> & Htags).
  exists invocations. split; [done|].
  clear Hcompile. induction Htags as [| io tagged ios l Htag _ IH]; [done|].
  cbn. by rewrite Htag, IH.
Qed.

Lemma run_query_settled schedule options c invocations :
  settled_invocations schedule options c = Some invocations →
  (run (query schedule options) c).2 = Returned (aggregate invocations).
Proof.
  unfold settled_invocations, query_compile, query, query_body.
  intros Hsettled.
  run_simpl.
  destruct (q_query options) as [text | document];
    [destruct (createQueryDocument text) as [document | e]; [| done] |];
    run_simpl;
    (destruct (new_Uri (q_uri options)) as [uri | e]; [| done]);
    run_simpl;
    (destruct (parseQuery uri document (q_variables options))
       as [invokeOptions | e]; [| done]);
    run_simpl; rewrite run_Promise_all;
    destruct (call_all _ _) as [c1 ts];
    destruct (settle_all schedule ts c1) as [c2 os]; cbn in Hsettled;
    destruct (all_fulfilled os); simplify_eq; by run_simpl.
Qed.

Lemma run_query_throws schedule options c e :
  query_compile options = Thrown e →
  (run (query schedule options) c).2 = Returned (query_failure e).
Proof.
  unfold query_compile, query, query_body, query_failure. intros Hthrows.
  run_simpl.
  destruct (q_query options) as [text | document];
    [destruct (createQueryDocument text) as [document | e'] |];
    run_simpl;
    try (destruct (new_Uri (q_uri options)) as [uri | e']);
    run_simpl;
    try (destruct (parseQuery uri document (q_variables options))
           as [invokeOptions | e']);
    simplify_eq; run_simpl; by destruct (length_truthy e).
Qed.

Lemma query_returns schedule options c :
  never_throws (query schedule options c).2.
Proof.
  unfold query, try_finally.
  destruct (try_catch _ _ c) as [c' t] eqn:Htry.
  apply on_settle_returns with (P := λ _, True).
  - change t with (c', t).2. rewrite <- Htry. unfold try_catch.
    destruct (query_body schedule options c) as [c0 t0].
    apply on_settle_returns_total. intros [a | e] c1; [by constructor|].
    async_unfold. destruct (length_truthy e); by constructor.
  - intros a c1 _. by constructor.
Qed.

Lemma aggregate_errors invocations :
  q_errors (aggregate invocations) =
  match omap (λ tagged, error tagged.2) invocations with
  | [] => None
  | errors => Some (ErrList errors)
  end.
Proof.
  unfold aggregate. cbn.
  by destruct (omap (λ tagged, error tagged.2) invocations).
Qed.

(** X5.  Partial success: when the renamed keys are pairwise distinct,
    the data maps the key of every field to the data of its
    invocation, absent for an invocation that returned none, and the
    errors are those of the invocations that carry one, in order. *)
Lemma query_partial_success schedule options c invocations :
  settled_invocations schedule options c = Some invocations →
  NoDup (makeRepeatedUnique invocations.*1) →
  "__proto__" ∉ makeRepeatedUnique invocations.*1 →
  ∃ d,
    (run (query schedule options) c).2 =
      Returned
        (mkQueryApiResult (Some d)
           match omap (λ tagged, error tagged.2) invocations with
           | [] => None
           | errors => Some (ErrList errors)
           end) ∧
    ∀ i key tagged,
      makeRepeatedUnique invocations.*1 !! i = Some key →
      invocations !! i = Some tagged →
      JsObject.get d key = Some (data tagged.2).
Proof.
  intros Hsettled Hnodup Hproto.
  rewrite (run_query_settled _ _ _ _ Hsettled).
  pose proof (aggregate_errors invocations) as Herrors.
  pose proof (makeRepeatedUnique_length invocations.*1) as Hlen.
  rewrite length_fmap in Hlen.
  unfold aggregate in *. cbn in *. rewrite Herrors.
  eexists. split; [reflexivity|].
  intros i key tagged Hkey Htagged.
  apply get_writes with (i := i).
  - rewrite fst_zip; [done|]. rewrite length_fmap. lia.
  - rewrite fst_zip; [done|]. rewrite length_fmap. lia.
  - apply lookup_zip_with_Some. exists key, (data tagged.2).
    split; [done|]. split; [done|].
    by rewrite list_lookup_fmap, Htagged.
Qed.

(** C10. [query] returns a result and never raises, in whatever
    states its turns run.  When the compilation of the query (the
    creation of the document, the Uri, [parseQuery]) throws [e], the
    result has no data and its [errors] is [e] itself when [e] has a
    non-zero [length], and the one-element list [[e]] otherwise, as
    for every [Error] object; in the other case the result is the
    aggregation of the settled invocations. *)
Theorem query_never_raises schedule options c :
  never_throws (query schedule options c).2 ∧
  (∃ c' result, run (query schedule options) c = (c', Returned result)) ∧
  match query_compile options with
  | Thrown e =>
      (run (query schedule options) c).2 =
      Returned
        (mkQueryApiResult None
           (Some match e with
                 | Err _ => ErrList [e]
                 | ErrList [] => ErrList [e]
                 | ErrList (_ :: _) => e
                 end))
  | Returned _ =>
      ∃ invocations,
        (run (query schedule options) c).2 =
        Returned (aggregate invocations)
  end.
Proof.
  split; [apply query_returns|].
  assert (match query_compile options with
          | Thrown e =>
              (run (query schedule options) c).2 =
              Returned
                (mkQueryApiResult None
                   (Some match e with
                         | Err _ => ErrList [e]
                         | ErrList [] => ErrList [e]
                         | ErrList (_ :: _) => e
                         end))
          | Returned _ =>
              ∃ invocations,
                (run (query schedule options) c).2 =
                Returned (aggregate invocations)
          end) as Hcases.
  { destruct (query_compile options) as [invokeOptions | e] eqn:Hcompile.
    - destruct (settled_invocations_total schedule options c invokeOptions
                  Hcompile) as (invocations & Hsettled & _).
      exists invocations. by apply run_query_settled.
    - rewrite (run_query_throws _ _ _ e Hcompile). unfold query_failure.
      by destruct e as [message | [| e' items]]. }
  split; [| exact Hcases].
  destruct (run (query schedule options) c) as [c' o].
  destruct (query_compile options); [destruct Hcases as [invocations ?] |];
    simplify_eq/=; eauto.
Qed.

Lemma query_errors_absent_aux schedule options c invocations :
  settled_invocations schedule options c = Some invocations →
  Forall (λ tagged, error tagged.2 = None) invocations →
  (run (query schedule options) c).2 =
  Returned (mkQueryApiResult (q_data (aggregate invocations)) None).
Proof.
  intros Hsettled Hok. rewrite (run_query_settled _ _ _ _ Hsettled).
  pose proof (aggregate_errors invocations) as Herrors.
  replace (omap (λ tagged, error tagged.2) invocations) with (@nil JsErr)
    in Herrors.
  - unfold aggregate in *. cbn in *. by rewrite Herrors.
  - clear Hsettled Herrors.
    induction Hok as [| tagged l Hnone _ IH]; [done|].
    cbn. by rewrite Hnone.
Qed.

(** C9. When every settled invocation of a query has no [error], the
    result has a data mapping and its [errors] is absent. *)
Theorem query_errors_absent schedule options c invocations :
  settled_invocations schedule options c = Some invocations →
  Forall (λ tagged, error tagged.2 = None) invocations →
  ∃ d,
    (run (query schedule options) c).2 =
    Returned (mkQueryApiResult (Some d) None).
Proof.
  intros Hsettled Hok.
  rewrite (query_errors_absent_aux _ _ _ _ Hsettled Hok). eauto.
Qed.

(** C4. A query whose fields are [foo], [foo], [bar], in this order,
    and whose invocations all succeed returns a data mapping whose
    keys are [foo], [foo_1], [bar], in this order, holding the data
    of the first, second and third invocation, and no errors. *)
Theorem query_foo_foo_bar schedule options c invokeOptions invocations :
  query_compile options = Returned invokeOptions →
  method <$> invokeOptions = ["foo"; "foo"; "bar"] →
  settled_invocations schedule options c = Some invocations →
  Forall (λ tagged, error tagged.2 = None) invocations →
  ∃ r1 r2 r3 d,
    invocations.*2 = [r1; r2; r3] ∧
    (run (query schedule options) c).2 =
      Returned (mkQueryApiResult (Some d) None) ∧
    JsObject.keys d = ["foo"; "foo_1"; "bar"] ∧
    JsObject.get d "foo" = Some (data r1) ∧
    JsObject.get d "foo_1" = Some (data r2) ∧
    JsObject.get d "bar" = Some (data r3).
Proof.
  intros Hcompile Hfields Hsettled Hok.
  pose proof (query_errors_absent_aux schedule options c invocations
                Hsettled Hok) as Hrun.
  destruct (settled_invocations_total schedule options c invokeOptions
              Hcompile) as (invocations' & Hsettled' & Htags).
  assert (invocations' = invocations) as -> by congruence.
  clear Hsettled'. rewrite Hfields in Htags.
  destruct invocations as [| [m1 r1] [| [m2 r2] [| [m3 r3] [| ? ?]]]];
    simplify_eq/=.
  exists r1, r2, r3. eexists. split; [done|].
  split; [exact Hrun|]. by vm_compute.
Qed.

End ClientProperties.

(** ** The client at work *)

Section Scenarios.

Import Scenario.

Lemma client_constructed : new_Web3ApiClient chain = Returned client.
Proof. reflexivity. Qed.

(** The test of the specification: a plugin method that throws. *)
Lemma invoke_plugin_method_throws :
  (run (invoke (mkInvokeApiOptions "ens/c.eth" "query" "explode" JNull
                  None None)) client).2
  = Returned failed.
Proof. vm_compute. reflexivity. Qed.

(** The three stages at work: an invalid Uri, a Uri that nothing
    resolves, and a plugin method that throws, on a cached and on a
    newly resolved implementation. *)
Lemma invoke_never_raises_witness :
  (run (invoke (call "" JNull)) client).2 =
    Returned (mkInvokeApiResult None (Some (Err "InvalidUriError"))) ∧
  (run (invoke (call "ens/nobody.eth" JNull)) client).2 =
    Returned (mkInvokeApiResult None (Some (Err "UnresolvedUriError"))) ∧
  (run (invoke (mkInvokeApiOptions "ens/c.eth" "query" "explode" JNull
                  None None)) warm).2 = Returned failed ∧
  (run (invoke (mkInvokeApiOptions "ens/a.eth" "query" "explode" JNull
                  None None)) client).2 = Returned failed.
Proof.
  destruct (invoke_never_raises (call "" JNull) client)
    as (_ & _ & _ & Hinvalid & _).
  destruct (invoke_never_raises (call "ens/nobody.eth" JNull) client)
    as (_ & _ & _ & _ & Hnobody).
  destruct (Hnobody (Uri.mk "ens" "nobody.eth" "w3://ens/nobody.eth")
              eq_refl) as (Hunresolved & _ & _).
  destruct (invoke_never_raises
              (mkInvokeApiOptions "ens/c.eth" "query" "explode" JNull
                 None None) warm)
    as (_ & _ & _ & _ & Hwarm).
  destruct (Hwarm uriC eq_refl) as (_ & Hcached & _).
  destruct (invoke_never_raises
              (mkInvokeApiOptions "ens/a.eth" "query" "explode" JNull
                 None None) client)
    as (_ & _ & _ & _ & Hcold).
  destruct (Hcold uriA eq_refl) as (_ & _ & Hresolved).
  destruct (Hresolved apiC eq_refl eq_refl) as (c1 & _ & Hthrown).
  split; [exact (Hinvalid _ eq_refl)|].
  split; [exact (Hunresolved _ eq_refl eq_refl)|].
  split; [exact (Hcached (mkApi 0 apiC) eq_refl)|].
  exact Hthrown.
Defined.

(** On the chain A → B → C → plugin the three entry points get the
    instances 0, 1 and 2. *)
Lemma redirect_chain_instances_witness :
  ∃ c',
    run (a ← loadWeb3Api uriA;
         b ← loadWeb3Api uriB;
         c ← loadWeb3Api uriC;
         mret [a; b; c]) client
    = (c', Returned [mkApi (instances client) apiC;
                     mkApi (instances client + 1) apiC;
                     mkApi (instances client + 2) apiC]) ∧
    resolutions c' = resolutions client + 3 ∧
    instances c' = instances client + 3.
Proof.
  apply (redirect_chain_instances uriA uriB uriC client apiC);
    first [reflexivity | by vm_compute].
Defined.

(** C3 as stated fails: two calls of [loadWeb3Api] made in one turn
    for the uncached Uri A make two resolutions and create two
    instances, not one. *)
Lemma concurrent_loads_not_shared :
  let r := concurrent_loads 2 [0; 1] uriA client in
  _apiCache client !! Uri.uri uriA = None ∧
  r.2 = [Returned (mkApi 0 apiC); Returned (mkApi 1 apiC)] ∧
  resolutions r.1 = resolutions client + 2 ∧
  instances r.1 = instances client + 2 ∧
  resolutions r.1 ≠ resolutions client + 1 ∧
  instances r.1 ≠ instances client + 1.
Proof. vm_compute. repeat split; done. Qed.

Lemma concurrent_loads_resolve_each_witness :
  _apiCache client !! Uri.uri uriA = None ∧
  resolveUri uriA (redirects client) = Returned (Some apiC) ∧
  ∃ c' apis,
    concurrent_loads 3 [2; 0; 1] uriA client = (c', Returned <$> apis) ∧
    length apis = 3 ∧
    resolutions c' = resolutions client + 3 ∧
    instances c' = instances client + 3 ∧
    api_ref <$> apis ≡ₚ seq (instances client) 3.
Proof.
  split; [reflexivity|]. split; [reflexivity|].
  apply (concurrent_loads_resolve_each 3 [2; 0; 1] uriA client apiC);
    reflexivity.
Defined.

(** C5.  The fields [foo], [foo], [foo_1] are renamed to [foo],
    [foo_1], [foo_1]: the keys are not pairwise distinct, and in the
    data mapping the data of the third field has replaced that of the
    second. *)
Theorem makeRepeatedUnique_collision :
  makeRepeatedUnique ["foo"; "foo"; "foo_1"] = ["foo"; "foo_1"; "foo_1"] ∧
  ¬ NoDup (makeRepeatedUnique ["foo"; "foo"; "foo_1"]) ∧
  (∀ r1 r2 r3,
     q_data (aggregate [("foo", r1); ("foo", r2); ("foo_1", r3)])
     = Some [("foo", data r1); ("foo_1", data r3)]) ∧
  (run (query [] (fields [("foo", JNum 1); ("foo", JNum 2);
                          ("foo_1", JNum 3)])) client).2
  = Returned
      (mkQueryApiResult
         (Some [("foo", Some (JNum 1)); ("foo_1", Some (JNum 3))]) None).
Proof.
  split; [by vm_compute|]. split; [| split; [by vm_compute | by vm_compute]].
  replace (makeRepeatedUnique ["foo"; "foo"; "foo_1"])
    with ["foo"; "foo_1"; "foo_1"] by by vm_compute.
  intros (_ & (Hnew & _)%NoDup_cons)%NoDup_cons. apply Hnew. by left.
Qed.

(** C6.  In the query of the fields [foo], [foo], [foo_1], the first
    two invocations succeed with 1 and 2 and the third fails.  The
    errors hold the one failure, but the data mapping holds only the
    first success: the second was stored under the key of the failed
    field and replaced by its absent data. *)
Theorem query_one_failure_loses_success :
  let options := fields [("foo", JNum 1); ("foo", JNum 2); ("foo_1", JNull)] in
  settled_invocations [] options client
  = Some [("foo", ok (JNum 1)); ("foo", ok (JNum 2)); ("foo_1", failed)] ∧
  (run (query [] options) client).2
  = Returned
      (mkQueryApiResult
         (Some [("foo", Some (JNum 1)); ("foo_1", None)])
         (Some (ErrList [Err "the plugin method threw"]))).
Proof. by vm_compute. Qed.

Lemma query_foo_foo_bar_witness :
  let options := fields [("foo", JNum 1); ("foo", JNum 2); ("bar", JNum 3)] in
  ∃ d,
    (run (query [1; 0; 2; 2; 1] options) client).2
    = Returned (mkQueryApiResult (Some d) None) ∧
    JsObject.keys d = ["foo"; "foo_1"; "bar"] ∧
    JsObject.get d "foo" = Some (Some (JNum 1)) ∧
    JsObject.get d "foo_1" = Some (Some (JNum 2)) ∧
    JsObject.get d "bar" = Some (Some (JNum 3)).
Proof.
  intros options.
  destruct (query_foo_foo_bar [1; 0; 2; 2; 1] options client
              ((λ field, mkInvokeApiOptions uriA "query" field.1 field.2
                           None None)
                 <$> [("foo", JNum 1); ("foo", JNum 2); ("bar", JNum 3)])
              [("foo", ok (JNum 1)); ("foo", ok (JNum 2));
               ("bar", ok (JNum 3))])
    as (r1 & r2 & r3 & d & Hrs & Hrun & Hkeys & H1 & H2 & H3).
  - reflexivity.
  - reflexivity.
  - reflexivity.
  - repeat constructor.
  - cbn in Hrs. injection Hrs as E1 E2 E3. subst r1 r2 r3. exists d. auto.
Defined.

Lemma query_errors_absent_witness :
  ∃ d,
    (run (query [0; 0; 1] (fields [("a", JNum 1); ("b", JBool true)]))
       client).2
    = Returned (mkQueryApiResult (Some d) None).
Proof.
  apply (query_errors_absent [0; 0; 1]
           (fields [("a", JNum 1); ("b", JBool true)]) client
           [("a", ok (JNum 1)); ("b", ok (JBool true))]).
  - reflexivity.
  - repeat constructor.
Defined.

Lemma invoke_unresolved_uri_witness :
  ∃ c',
    run (invoke (mkInvokeApiOptions "w3://ens/nobody.eth" "query" "m" JNull
                   None None)) client
    = (c', Returned (mkInvokeApiResult None (Some (Err "UnresolvedUriError")))).
Proof.
  apply (invoke_unresolved_uri _ (Uri.mk "ens" "nobody.eth" "w3://ens/nobody.eth"));
    reflexivity.
Defined.

Lemma redirects_user_then_default_witness :
  ∃ sanitized,
    sanitizeUriRedirects (config_redirects chain) = Returned sanitized ∧
    redirects client = sanitized ++ getDefaultRedirects ∧
    ∀ (matching : UriRedirect Uri.t → bool) rule,
      List.find matching sanitized = Some rule →
      List.find matching (redirects client) = Some rule.
Proof. apply (redirects_user_then_default chain client). reflexivity. Defined.

End Scenarios.

(** * Further properties *)

(** ** The renaming, in closed form *)

Lemma occurrences_absent name names :
  name ∉ names → occurrences name names = 0.
Proof.
  unfold occurrences. induction names as [| n names IH]; intros Hname; [done|].
  apply not_elem_of_cons in Hname as [Hne Hname].
  rewrite filter_cons. case_decide; [congruence | auto].
Qed.

Lemma occurrences_app name l1 l2 :
  occurrences name (l1 ++ l2) = occurrences name l1 + occurrences name l2.
Proof. unfold occurrences. by rewrite filter_app, length_app. Qed.

Lemma occurrences_cons_eq name names :
  occurrences name (name :: names) = S (occurrences name names).
Proof. unfold occurrences. rewrite filter_cons. by case_decide. Qed.

(** A later occurrence of a name has more occurrences before it. *)
Lemma occurrences_take_lt names i j name :
  names !! i = Some name → i < j →
  occurrences name (take i names) < occurrences name (take j names).
Proof.
  intros Hi Hlt.
  rewrite <- (take_drop_middle names i name Hi) at 2.
  assert (length (take i names) = i) as Hlen.
  { rewrite length_take. apply lookup_lt_Some in Hi. lia. }
  replace j with (length (take i names) + S (j - S i)) by lia.
  rewrite take_app_add. cbn [take].
  rewrite occurrences_app, occurrences_cons_eq. lia.
Qed.

Lemma makeRepeatedUnique_step_closed names :
  ∀ earlier counts acc,
    (∀ n, inherited n = false →
          default 0 (counts !! n) = occurrences n earlier) →
    (foldl makeRepeatedUnique_step (counts, acc) names).2 =
    acc ++ imap (λ i name,
                   if inherited name then name
                   else suffixed name
                          (occurrences name (earlier ++ take i names)))
             names.
Proof.
  induction names as [| name names IH]; intros earlier counts acc Hcounts.
  { cbn. by rewrite app_nil_r. }
  cbn [foldl]. unfold makeRepeatedUnique_step at 2.
  destruct (inherited name) eqn:Hname.
  - rewrite (IH (earlier ++ [name])).
    + rewrite <- app_assoc. f_equal. cbn. rewrite Hname. f_equal.
      apply imap_ext. intros i n _. cbn. by rewrite <- app_assoc.
    + intros n Hn. rewrite occurrences_snoc. case_decide; [congruence|].
      rewrite (Hcounts n Hn). lia.
  - rewrite (IH (earlier ++ [name])).
    + rewrite <- app_assoc. f_equal. cbn.
      rewrite Hname, app_nil_r, (Hcounts name Hname). f_equal.
      * unfold suffixed.
        replace (occurrences name earlier + 1 - 1)
          with (occurrences name earlier) by lia.
        repeat case_bool_decide; (done || lia).
      * apply imap_ext. intros i n _. cbn. by rewrite <- app_assoc.
    + intros n Hn. rewrite occurrences_snoc. case_decide as Heq.
      * subst n. rewrite lookup_insert_eq. cbn.
        by rewrite (Hcounts name Hname).
      * rewrite lookup_insert_ne by done. rewrite (Hcounts n Hn). lia.
Qed.

(** X1.  [makeRepeatedUnique] in closed form, for every list of names:
    the name at a position is kept when [{}] inherits a property of
    that name or when it did not occur before, and is otherwise
    suffixed with [_k], [k] being the number of its earlier
    occurrences.  The result has one key per name. *)
Theorem makeRepeatedUnique_closed_form names :
  makeRepeatedUnique names =
  imap (λ i name,
          if inherited name then name
          else suffixed name (occurrences name (take i names)))
    names ∧
  length (makeRepeatedUnique names) = length names.
Proof.
  split; [| apply makeRepeatedUnique_length].
  unfold makeRepeatedUnique.
  by rewrite (makeRepeatedUnique_step_closed names []).
Qed.

Lemma makeRepeatedUnique_lookup names i name :
  names !! i = Some name →
  makeRepeatedUnique names !! i =
  Some (if inherited name then name
        else suffixed name (occurrences name (take i names))).
Proof.
  intros Hi. unfold makeRepeatedUnique.
  rewrite (makeRepeatedUnique_step_closed names []) by done.
  cbn. by rewrite list_lookup_imap, Hi.
Qed.

(** X2.  Field names that are pairwise distinct are left as they
    are. *)
Theorem makeRepeatedUnique_distinct names :
  NoDup names → makeRepeatedUnique names = names.
Proof.
  intros Hnodup. apply list_eq. intros i.
  destruct (names !! i) as [name |] eqn:Hi.
  - rewrite (makeRepeatedUnique_lookup names i name Hi).
    destruct (inherited name); [done|].
    rewrite occurrences_absent; [done|].
    intros Hin. apply list_elem_of_lookup in Hin as [j Hj].
    apply lookup_take_Some in Hj as [Hj Hlt].
    pose proof (NoDup_lookup _ _ _ _ Hnodup Hi Hj). lia.
  - apply lookup_ge_None. rewrite makeRepeatedUnique_length.
    by apply lookup_ge_None.
Qed.

(** *** When the renamed keys are pairwise distinct *)

Lemma pretty_N_go_no_underscore x :
  ∀ s, (∀ s1 s2, s ≠ s1 +:+ "_" +:+ s2) →
       ∀ s1 s2, pretty_N_go x s ≠ s1 +:+ "_" +:+ s2.
Proof.
  induction (N.lt_wf_0 x) as [x _ IH]; intros s Hs.
  assert (x = 0 ∨ 0 < x)%N as [-> | Hpos] by lia.
  { by rewrite pretty_N_go_0. }
  rewrite pretty_N_go_step by done. apply IH; [by apply N.div_lt|].
  intros [| c s1] s2 Heq; cbn in Heq.
  - injection Heq as Hchar _. unfold pretty_N_char in Hchar.
    by repeat case_match.
  - injection Heq as _ Hrest. by eapply Hs.
Qed.

Lemma pretty_no_underscore (k : nat) s1 s2 :
  pretty k ≠ s1 +:+ "_" +:+ s2.
Proof.
  unfold pretty, pretty_nat, pretty, pretty_N. case_decide.
  - by destruct s1 as [| c [| c' s1]].
  - apply pretty_N_go_no_underscore. by intros [| c s1'] s2'.
Qed.

(** The text before the last underscore and the number after it
    determine each other. *)
Lemma suffix_inj a b (i j : nat) :
  a +:+ "_" +:+ pretty i = b +:+ "_" +:+ pretty j → a = b ∧ i = j.
Proof.
  revert b. induction a as [| c a IH]; intros [| c' b] Heq; simplify_eq/=.
  - split; [done|]. by apply (inj pretty).
  - by destruct (pretty_no_underscore i b (pretty j)).
  - by destruct (pretty_no_underscore j a (pretty i)).
  - destruct (IH b) as [-> ->]; done.
Qed.

(** X3.  The keys are pairwise distinct whenever no field is named
    like a member of [Object.prototype] and no field name is another
    field's name followed by [_] and a positive number. *)
Theorem makeRepeatedUnique_NoDup names :
  Forall (λ n, inherited n = false) names →
  (∀ a b k, a ∈ names → b ∈ names → 0 < k → b ≠ a +:+ "_" +:+ pretty k) →
  NoDup (makeRepeatedUnique names).
Proof.
  intros Hplain Hfresh. apply NoDup_alt. intros i j key Hi Hj.
  assert (∀ i, is_Some (makeRepeatedUnique names !! i) → is_Some (names !! i))
    as Hdom.
  { intros k Hk. apply lookup_lt_is_Some.
    rewrite <- makeRepeatedUnique_length. by apply lookup_lt_is_Some. }
  destruct (Hdom i) as [a Ha]; [eauto|].
  destruct (Hdom j) as [b Hb]; [eauto|].
  rewrite (makeRepeatedUnique_lookup names i a Ha) in Hi.
  rewrite (makeRepeatedUnique_lookup names j b Hb) in Hj.
  rewrite (proj1 (Forall_lookup _ _) Hplain i a Ha) in Hi.
  rewrite (proj1 (Forall_lookup _ _) Hplain j b Hb) in Hj.
  injection Hi as <-. injection Hj as Hkey. symmetry in Hkey.
  assert (a ∈ names) as Hina by (by eapply list_elem_of_lookup_2).
  assert (b ∈ names) as Hinb by (by eapply list_elem_of_lookup_2).
  assert (a = b ∧ occurrences a (take i names) = occurrences b (take j names))
    as [<- Hocc].
  { unfold suffixed in Hkey. repeat case_bool_decide.
    - split; [done | lia].
    - destruct (Hfresh b a (occurrences b (take j names))); auto with lia.
    - destruct (Hfresh a b (occurrences a (take i names))); auto with lia.
    - by apply suffix_inj. }
  destruct (decide (i = j)) as [| Hne]; [done|].
  assert (i < j ∨ j < i) as [Hlt | Hlt] by lia.
  - pose proof (occurrences_take_lt names i j a Ha Hlt). lia.
  - pose proof (occurrences_take_lt names j i a Hb Hlt). lia.
Qed.

(** ** The data mapping of a query *)

Section Writes.

Context {V : Type}.
Implicit Types (o : JsObject.t V) (kvs : list (string * V)).





End Writes.

Section QueryProperties.

Context `{CoreJs}.

Lemma settled_query_data schedule options c invocations :
  settled_invocations schedule options c = Some invocations →
  ∃ result d,
    (run (query schedule options) c).2 = Returned result ∧
    q_data result = Some d ∧
    q_errors result =
      match omap (λ tagged, error tagged.2) invocations with
      | [] => None
      | errors => Some (ErrList errors)
      end ∧
    d = foldl (λ d kv, JsObject.set d kv.1 kv.2) JsObject.empty
          (zip (makeRepeatedUnique invocations.*1)
               ((λ tagged, data tagged.2) <$> invocations)).
Proof.
  intros Hsettled. rewrite (run_query_settled _ _ _ _ Hsettled).
  exists (aggregate invocations). eexists.
  split; [done|]. split; [reflexivity|]. split; [| done].
  apply aggregate_errors.
Qed.


(** X6.  The errors of a query are the errors of its invocations, in
    request order, whatever the keys; they are absent exactly when no
    invocation carries one. *)
Theorem query_errors_in_order schedule options c invocations :
  settled_invocations schedule options c = Some invocations →
  ∃ result,
    (run (query schedule options) c).2 = Returned result ∧
    q_errors result =
      match omap (λ tagged, error tagged.2) invocations with
      | [] => None
      | errors => Some (ErrList errors)
      end ∧
    (q_errors result = None ↔
     Forall (λ tagged, error tagged.2 = None) invocations).
Proof.
  intros Hsettled.
  destruct (settled_query_data _ _ _ _ Hsettled)
    as (result & d & Hrun & _ & Herrors & _).
  exists result. split; [done|]. split; [done|]. rewrite Herrors.
  clear. induction invocations as [| tagged l IH].
  - split; [constructor | done].
  - cbn. destruct (error tagged.2) as [e |] eqn:He.
    + split; [done|]. intros Hall. apply Forall_cons in Hall as [Hnone _].
      congruence.
    + rewrite IH. split; [by constructor|].
      intros Hall. by apply Forall_cons in Hall as [_ Hall].
Qed.


End QueryProperties.

(** ** The turns of a query *)

Lemma interleave_nil {A} schedule c :
  interleave schedule (@nil (Task A)) c = (c, []).
Proof. induction schedule as [| i schedule IH]; [done | exact IH]. Qed.

Section QueryTurns.

Context `{CoreJs}.

Lemma run_query_throws_state schedule options c e :
  query_compile options = Thrown e →
  run (query schedule options) c =
  (traced [StartSpan "query"; SetAttribute "options"; RecordException e;
           EndSpan] c,
   Returned (query_failure e)).
Proof.
  unfold query_compile, query, query_body, query_failure, endSpan.
  intros Hthrows. run_simpl.
  destruct (q_query options) as [text | document];
    [destruct (createQueryDocument text) as [document | e'] |];
    run_simpl;
    try (destruct (new_Uri (q_uri options)) as [uri | e']);
    run_simpl;
    try (destruct (parseQuery uri document (q_variables options))
           as [invokeOptions | e']);
    simplify_eq; run_simpl; destruct (length_truthy e); by run_simpl.
Qed.

(** X9.  A query whose compilation throws touches nothing but the
    tracer: no invocation is made, no resolution is started, and the
    cache and the redirects are what they were. *)
Theorem query_compile_failure_leaves_client schedule options c e :
  query_compile options = Thrown e →
  let c' := (run (query schedule options) c).1 in
  _apiCache c' = _apiCache c ∧
  _config c' = _config c ∧
  resolutions c' = resolutions c ∧
  instances c' = instances c ∧
  _tracer c' =
    _tracer c ++ [StartSpan "query"; SetAttribute "options";
                  RecordException e; EndSpan].
Proof.
  intros Hthrows. cbn zeta.
  by rewrite (run_query_throws_state schedule options c e Hthrows).
Qed.

(** X8.  A query without fields returns an empty data mapping and no
    errors, and leaves the cache and the counters as they were. *)
Theorem query_no_fields schedule options c :
  query_compile options = Returned [] →
  run (query schedule options) c =
  (traced [StartSpan "query"; SetAttribute "options";
           AddEvent "invocations finished"; SetAttribute "methods";
           SetAttribute "data"; EndSpan] c,
   Returned (mkQueryApiResult (Some JsObject.empty) None)).
Proof.
  unfold query_compile, query, query_body, endSpan. intros Hcompile.
  run_simpl.
  destruct (q_query options) as [text | document];
    [destruct (createQueryDocument text) as [document | e]; [| done] |];
    run_simpl;
    (destruct (new_Uri (q_uri options)) as [uri | e]; [| done]);
    run_simpl; rewrite Hcompile; run_simpl;
    rewrite run_Promise_all; cbn;
    unfold settle_all; rewrite interleave_nil; cbn; by run_simpl.
Qed.

Lemma invoke_first_turn options c :
  let c1 := (invoke options c).1 in
  resolutions c1 =
    resolutions c +
    match new_Uri (io_uri options) with
    | Returned uri =>
        if bool_decide (_apiCache c !! Uri.uri uri = None) then 1 else 0
    | Thrown _ => 0
    end ∧
  _apiCache c1 = _apiCache c ∧
  instances c1 =
    instances c +
    match new_Uri (io_uri options) with
    | Returned uri =>
        if bool_decide (_apiCache c !! Uri.uri uri = None) &&
           match resolveUri uri (redirects c) with
           | Returned (Some ctor) => created_at_call ctor
           | _ => false
           end
        then 1 else 0
    | Thrown _ => 0
    end ∧
  _config c1 = _config c.
Proof.
  unfold invoke, invoke_body, loadWeb3Api, resolveUri_call, endSpan.
  async_unfold.
  destruct (new_Uri (io_uri options)) as [uri | e]; cbn.
  - case_bool_decide as Hmiss.
    + rewrite Hmiss.
      change (redirects (traced _ (traced _ (traced _ (traced _ c)))))
        with (redirects c).
      destruct (resolveUri uri (redirects c)) as [[ctor |] | e];
        [destruct (created_at_call ctor) | |]; cbn; repeat split; lia.
    + destruct (_apiCache c !! Uri.uri uri) as [api |]; [| done].
      cbn. repeat split; lia.
  - repeat split; lia.
Qed.

Lemma bind_first_turn {A B} (m : Async A) (b : A → B) c :
  ((a ← m; mret (b a)) c).1 = (m c).1.
Proof.
  unfold mbind, Async_bind. destruct (m c) as [c' [[a | e] | effect next]];
    done.
Qed.

Lemma call_all_first_turn invokeOptions :
  ∀ c,
    let c1 := (call_all (query_invocation <$> invokeOptions) c).1 in
    resolutions c1 =
      resolutions c +
      length (filter (λ io, needs_resolution c io = true) invokeOptions) ∧
    _apiCache c1 = _apiCache c ∧
    instances c1 =
      instances c +
      length (filter (λ io, creates_at_call c io = true) invokeOptions) ∧
    _config c1 = _config c.
Proof.
  induction invokeOptions as [| io ios IH]; intros c; cbn zeta.
  { cbn. repeat split; lia. }
  rewrite fmap_cons. cbn [call_all].
  assert ((query_invocation io c).1 =
          (invoke (mkInvokeApiOptions (Uri.uri (io_uri io))
                     (io_module io) (method io) (input io)
                     (resultFilter io) (Some true)) c).1) as Hbind.
  { apply (bind_first_turn _ (λ result, (method io, result))). }
  pose proof (invoke_first_turn
                (mkInvokeApiOptions (Uri.uri (io_uri io))
                   (io_module io) (method io) (input io)
                   (resultFilter io) (Some true)) c) as Hinvoke.
  cbn zeta in Hinvoke. rewrite <- Hbind in Hinvoke. clear Hbind.
  destruct (query_invocation io c) as [c1 t]. cbn [fst io_uri] in Hinvoke.
  destruct Hinvoke as (Hr1 & Hcache1 & Hn1 & Hcfg1).
  specialize (IH c1). cbn zeta in IH.
  destruct (call_all (query_invocation <$> ios) c1) as [c2 ts].
  cbn [fst] in *. destruct IH as (Hr2 & Hcache2 & Hn2 & Hcfg2).
  rewrite (list_filter_iff _ (λ io', needs_resolution c io' = true)) in Hr2.
  2: { intros io'. unfold needs_resolution. by rewrite Hcache1. }
  rewrite (list_filter_iff (λ io', creates_at_call c1 io' = true)
             (λ io', creates_at_call c io' = true)) in Hn2.
  2: { intros io'. unfold creates_at_call, redirects.
       by rewrite Hcache1, Hcfg1. }
  split; [| split; [congruence | split; [| congruence]]].
  - rewrite filter_cons, Hr2, Hr1.
    generalize (filter (λ io', needs_resolution c io' = true) ios).
    intros started. unfold needs_resolution.
    destruct (new_Uri (Uri.uri (io_uri io))) as [uri | e];
      [case_bool_decide |]; case_decide; cbn; (done || lia).
  - rewrite filter_cons, Hn2, Hn1.
    generalize (filter (λ io', creates_at_call c io' = true) ios).
    intros created. unfold creates_at_call.
    destruct (new_Uri (Uri.uri (io_uri io))) as [uri | e];
      [destruct (_ && _) |]; case_decide; cbn; (done || lia).
Qed.

(** X10.  By the time [query] first suspends it has started one
    resolution for every field whose Uri is valid and uncached, also
    when several fields name the same Uri, and the cache is what it
    was; an instance exists already for each of these fields that
    resolves to a plugin, one per field. *)
Theorem query_first_turn schedule options c invokeOptions :
  query_compile options = Returned invokeOptions →
  let c1 := (query schedule options c).1 in
  resolutions c1 =
    resolutions c +
    length (filter (λ io, needs_resolution c io = true) invokeOptions) ∧
  _apiCache c1 = _apiCache c ∧
  instances c1 =
    instances c +
    length (filter (λ io, creates_at_call c io = true) invokeOptions).
Proof.
  intros Hcompile. cbn zeta.
  pose proof (call_all_first_turn invokeOptions
                (traced [SetAttribute "options"]
                   (traced [StartSpan "query"] c))) as Hcalls.
  cbn zeta in Hcalls.
  assert (∀ io, needs_resolution
                  (traced [SetAttribute "options"]
                     (traced [StartSpan "query"] c)) io
                = needs_resolution c io) as Hsame by done.
  assert (∀ io, creates_at_call
                  (traced [SetAttribute "options"]
                     (traced [StartSpan "query"] c)) io
                = creates_at_call c io) as Hsame' by done.
  rewrite (list_filter_iff _ (λ io, needs_resolution c io = true)) in Hcalls
    by (intros io; by rewrite Hsame).
  rewrite (list_filter_iff
             (λ io, creates_at_call
                      (traced [SetAttribute "options"]
                         (traced [StartSpan "query"] c)) io = true)
             (λ io, creates_at_call c io = true)) in Hcalls
    by (intros io; by rewrite Hsame').
  unfold query_compile in Hcompile.
  unfold query, query_body, try_finally, try_catch, Promise_all.
  async_unfold.
  destruct (q_query options) as [text | document];
    [destruct (createQueryDocument text) as [document | e]; [| done] |];
    (destruct (new_Uri (q_uri options)) as [uri | e]; [| done]);
    rewrite Hcompile;
    destruct (call_all _ _) as [c2 ts]; cbn in *;
    destruct Hcalls as (Hr & Hcache & Hn & _); done.
Qed.

End QueryTurns.

(** ** The cache across calls *)

Section CacheProperties.

Context `{CoreJs}.

(** X12.  Run on its own, [loadWeb3Api] calls [resolveUri] exactly when
    the Uri has no cached implementation, never removes or replaces an
    entry the cache holds, creates at most one instance, and leaves the
    redirects alone -- whatever the resolution ends in. *)
Theorem loadWeb3Api_keeps_entries uri c :
  let c' := (run (loadWeb3Api uri) c).1 in
  resolutions c' =
    resolutions c + (if _apiCache c !! Uri.uri uri is Some _ then 0 else 1) ∧
  (∀ key api, _apiCache c !! key = Some api → _apiCache c' !! key = Some api) ∧
  instances c ≤ instances c' ≤ S (instances c) ∧
  _config c' = _config c.
Proof.
  cbn zeta. unfold run, loadWeb3Api, resolveUri_call. async_unfold.
  destruct (_apiCache c !! Uri.uri uri) as [api |] eqn:Hcache.
  { cbn. repeat split; auto; lia. }
  change (redirects (traced _ (traced _ c))) with (redirects c).
  destruct (resolveUri uri (redirects c)) as [[ctor |] | e];
    [destruct (created_at_call ctor) | |]; cbn;
    (split; [lia|]); (split; [| split; [lia | done]]); try done;
    intros key api Hkey; (rewrite lookup_insert_ne; [done | congruence]).
Qed.

Lemma run_loadWeb3Api_unresolved uri c failure :
  _apiCache c !! Uri.uri uri = None →
  resolution_failure uri (redirects c) = Some failure →
  ∃ c',
    run (loadWeb3Api uri) c = (c', Thrown failure) ∧
    _apiCache c' = _apiCache c ∧ _config c' = _config c ∧
    resolutions c' = S (resolutions c) ∧ instances c' = instances c.
Proof.
  intros Hmiss Hfail. unfold resolution_failure in Hfail.
  unfold run, loadWeb3Api, resolveUri_call. async_unfold. rewrite Hmiss.
  change (redirects (traced _ (traced _ c))) with (redirects c).
  destruct (resolveUri uri (redirects c)) as [[ctor |] | e];
    simplify_eq; cbn; eauto 10.
Qed.

Lemma run_invoke_unresolved options uri c failure :
  new_Uri (io_uri options) = Returned uri →
  _apiCache c !! Uri.uri uri = None →
  resolution_failure uri (redirects c) = Some failure →
  ∃ c',
    run (invoke options) c =
      (c', Returned (mkInvokeApiResult None (Some failure))) ∧
    _apiCache c' = _apiCache c ∧ _config c' = _config c ∧
    resolutions c' = S (resolutions c) ∧ instances c' = instances c.
Proof.
  intros Huri Hmiss Hfail. rewrite run_invoke. unfold invoke_body.
  run_simpl. rewrite Huri. run_simpl.
  destruct (run_loadWeb3Api_unresolved uri
              (traced [StartSpan "invoke"; SetAttribute "options"] c)
              failure Hmiss Hfail) as (c' & -> & Hcache & Hcfg & Hr & Hn).
  eexists. split; [reflexivity|]. cbn in *. auto.
Qed.

(** X17.  A failed resolution is not remembered: two [invoke]s in a row
    of a Uri that resolves to nothing both return the failure, and
    each calls [resolveUri]; the cache stays as it was. *)
Theorem invoke_unresolved_twice options uri c failure :
  new_Uri (io_uri options) = Returned uri →
  _apiCache c !! Uri.uri uri = None →
  resolution_failure uri (redirects c) = Some failure →
  ∃ c',
    run (first ← invoke options; second ← invoke options;
         mret (first, second)) c
    = (c', Returned (mkInvokeApiResult None (Some failure),
                     mkInvokeApiResult None (Some failure))) ∧
    resolutions c' = resolutions c + 2 ∧
    instances c' = instances c ∧
    _apiCache c' = _apiCache c.
Proof.
  intros Huri Hmiss Hfail.
  destruct (run_invoke_unresolved options uri c failure Huri Hmiss Hfail)
    as (c1 & Hrun1 & Hcache1 & Hcfg1 & Hr1 & Hn1).
  destruct (run_invoke_unresolved options uri c1 failure Huri)
    as (c2 & Hrun2 & Hcache2 & Hcfg2 & Hr2 & Hn2).
  { by rewrite Hcache1. }
  { unfold redirects. by rewrite Hcfg1. }
  rewrite run_bind, Hrun1, run_bind, Hrun2, run_mret.
  exists c2. split; [done|]. repeat split; [lia | congruence | congruence].
Qed.

(** X14.  For options whose Uri is invalid, [invoke] returns the
    failure of the Uri constructor as the error, without looking at
    the cache or resolving anything; it records the exception and ends
    a span it has not started. *)
Theorem invoke_invalid_uri options c e :
  new_Uri (io_uri options) = Thrown e →
  run (invoke options) c =
  (traced [RecordException e; EndSpan] c,
   Returned (mkInvokeApiResult None (Some e))).
Proof.
  intros Huri. rewrite run_invoke.
  rewrite (run_invoke_body_invalid_uri options c e Huri).
  unfold endSpan. by rewrite traced_traced.
Qed.

(** X15.  On a Uri whose implementation is cached, [invoke] makes no
    resolution and hands the options, with the parsed Uri in place of
    its text, to that implementation: it returns what the
    implementation returns, and the implementation's failure as the
    error of the result. *)
Theorem invoke_cached_dispatch options uri c api :
  new_Uri (io_uri options) = Returned uri →
  _apiCache c !! Uri.uri uri = Some api →
  (run (invoke options) c).2 =
  Returned
    (caught
       (run (Api_invoke api
               (mkInvokeApiOptions uri (io_module options) (method options)
                  (input options) (resultFilter options) (decode options)))
          (traced [StartSpan "invoke"; SetAttribute "options";
                   StartSpan "load-web3api"; SetAttribute "uri"; EndSpan;
                   AddEvent "load-web3api"] c)).2).
Proof.
  intros Huri Hhit. rewrite run_invoke.
  rewrite (run_invoke_body_dispatch options uri c api Huri Hhit).
  by destruct (run _ _) as [c1 [result | e]].
Qed.

(** X16.  On an uncached Uri that resolves to an implementation,
    [invoke] creates the instance, stores it in the cache under the
    Uri and only then calls its [invoke], whose outcome it returns:
    the implementation already finds itself in the cache. *)
Theorem invoke_resolves_then_dispatches options uri c ctor :
  new_Uri (io_uri options) = Returned uri →
  _apiCache c !! Uri.uri uri = None →
  resolveUri uri (redirects c) = Returned (Some ctor) →
  ∃ c1,
    (run (invoke options) c).2 =
      Returned
        (caught
           (run (Api_invoke (mkApi (instances c) ctor)
                   (mkInvokeApiOptions uri (io_module options)
                      (method options) (input options)
                      (resultFilter options) (decode options)))
              c1).2) ∧
    _apiCache c1 !! Uri.uri uri = Some (mkApi (instances c) ctor) ∧
    resolutions c1 = S (resolutions c) ∧
    instances c1 = S (instances c).
Proof.
  intros Huri Hmiss Hres.
  destruct (run_invoke_body_resolved options uri c ctor Huri Hmiss Hres)
    as (c1 & Hrun & Hcache & _ & Hr & Hn).
  exists c1. rewrite run_invoke, Hrun. split.
  - by destruct (run _ c1) as [c2 [result | e]].
  - rewrite Hcache, lookup_insert_eq. auto.
Qed.

End CacheProperties.

Section PassiveImplementations.

Context `{CoreJs}.

Lemma run_invoke_of_body options c :
  run (invoke options) c =
  let '(c1, o) := run (invoke_body options) c in
  (match o with
   | Returned _ => endSpan c1
   | Thrown e => endSpan (traced [RecordException e] c1)
   end,
   Returned (caught o)).
Proof.
  rewrite run_invoke. by destruct (run (invoke_body options) c) as [c1 [r | e]].
Qed.

Lemma run_invoke_cached_passive options uri c api :
  Api_passive →
  new_Uri (io_uri options) = Returned uri →
  _apiCache c !! Uri.uri uri = Some api →
  ∃ c' c2,
    run (invoke options) c =
      (c', Returned
             (caught
                (run (Api_invoke api
                        (mkInvokeApiOptions uri (io_module options)
                           (method options) (input options)
                           (resultFilter options) (decode options)))
                   c2).2)) ∧
    _apiCache c' = _apiCache c ∧ _config c' = _config c ∧
    resolutions c' = resolutions c ∧ instances c' = instances c.
Proof.
  intros Hpassive Huri Hhit. rewrite run_invoke_of_body.
  rewrite (run_invoke_body_dispatch options uri c api Huri Hhit).
  match goal with |- context [run ?m ?c2] =>
    destruct (Hpassive api
                (mkInvokeApiOptions uri (io_module options) (method options)
                   (input options) (resultFilter options) (decode options))
                c2) as (Hcache & Hcfg & Hr & Hn);
    exists (match (run m c2).2 with
            | Returned _ => endSpan (run m c2).1
            | Thrown e => endSpan (traced [RecordException e] (run m c2).1)
            end), c2;
    destruct (run m c2) as [c3 [r | e]]
  end; cbn in *; repeat split; congruence.
Qed.

Lemma run_invoke_resolved_passive options uri c ctor :
  Api_passive →
  new_Uri (io_uri options) = Returned uri →
  _apiCache c !! Uri.uri uri = None →
  resolveUri uri (redirects c) = Returned (Some ctor) →
  ∃ c' c1,
    run (invoke options) c =
      (c', Returned
             (caught
                (run (Api_invoke (mkApi (instances c) ctor)
                        (mkInvokeApiOptions uri (io_module options)
                           (method options) (input options)
                           (resultFilter options) (decode options)))
                   c1).2)) ∧
    _apiCache c' = <[Uri.uri uri := mkApi (instances c) ctor]> (_apiCache c) ∧
    _config c' = _config c ∧
    resolutions c' = S (resolutions c) ∧ instances c' = S (instances c).
Proof.
  intros Hpassive Huri Hmiss Hres. rewrite run_invoke_of_body.
  destruct (run_invoke_body_resolved options uri c ctor Huri Hmiss Hres)
    as (c1 & -> & Hcache1 & Hcfg1 & Hr1 & Hn1).
  match goal with |- context [run ?m c1] =>
    destruct (Hpassive (mkApi (instances c) ctor)
                (mkInvokeApiOptions uri (io_module options) (method options)
                   (input options) (resultFilter options) (decode options))
                c1) as (Hcache & Hcfg & Hr & Hn);
    exists (match (run m c1).2 with
            | Returned _ => endSpan (run m c1).1
            | Thrown e => endSpan (traced [RecordException e] (run m c1).1)
            end), c1;
    destruct (run m c1) as [c3 [r | e]]
  end; cbn in *; repeat split; congruence.
Qed.

(** X18.  With implementations that make no call back into the
    client, two [invoke]s in a row of the same uncached Uri make one
    resolution and create one instance: the second is served from the
    cache, and both are dispatched to the same instance. *)
Theorem invoke_twice_resolves_once options1 options2 uri c ctor :
  Api_passive →
  new_Uri (io_uri options1) = Returned uri →
  new_Uri (io_uri options2) = Returned uri →
  _apiCache c !! Uri.uri uri = None →
  resolveUri uri (redirects c) = Returned (Some ctor) →
  ∃ c' c1 c2,
    run (first ← invoke options1; second ← invoke options2;
         mret (first, second)) c
    = (c',
       Returned
         (caught
            (run (Api_invoke (mkApi (instances c) ctor)
                    (mkInvokeApiOptions uri (io_module options1)
                       (method options1) (input options1)
                       (resultFilter options1) (decode options1)))
               c1).2,
          caught
            (run (Api_invoke (mkApi (instances c) ctor)
                    (mkInvokeApiOptions uri (io_module options2)
                       (method options2) (input options2)
                       (resultFilter options2) (decode options2)))
               c2).2)) ∧
    resolutions c' = S (resolutions c) ∧
    instances c' = S (instances c) ∧
    _apiCache c' !! Uri.uri uri = Some (mkApi (instances c) ctor).
Proof.
  intros Hpassive Huri1 Huri2 Hmiss Hres.
  destruct (run_invoke_resolved_passive options1 uri c ctor
              Hpassive Huri1 Hmiss Hres)
    as (c1' & c1 & Hrun1 & Hcache1 & Hcfg1 & Hr1 & Hn1).
  destruct (run_invoke_cached_passive options2 uri c1'
              (mkApi (instances c) ctor) Hpassive Huri2)
    as (c2' & c2 & Hrun2 & Hcache2 & Hcfg2 & Hr2 & Hn2).
  { rewrite Hcache1. apply lookup_insert_eq. }
  rewrite run_bind, Hrun1, run_bind, Hrun2, run_mret.
  exists c2', c1, c2. split; [done|].
  rewrite Hcache2, Hcache1, lookup_insert_eq. repeat split; congruence.
Qed.

(** X19.  The default redirects are a fallback: in the table of a
    constructed client they are consulted only by a Uri that no
    sanitized user redirect matches, and then in their own order.  A
    new client has an empty cache. *)
Theorem default_redirects_fallback config c :
  new_Web3ApiClient config = Returned c →
  ∃ sanitized,
    sanitizeUriRedirects (config_redirects config) = Returned sanitized ∧
    _apiCache c = ∅ ∧
    ∀ matching : UriRedirect Uri.t → bool,
      List.find matching sanitized = None →
      List.find matching (redirects c) =
      List.find matching getDefaultRedirects.
Proof.
  unfold new_Web3ApiClient. intros Hnew.
  destruct (sanitizeUriRedirects (config_redirects config))
    as [sanitized | e]; simplify_eq.
  exists sanitized. split; [done|]. split; [done|].
  intros matching. cbn. induction sanitized as [| r rest IH]; [done|].
  cbn. destruct (matching r); [done | exact IH].
Qed.

End PassiveImplementations.

(** ** The cache after concurrent calls *)

Section ConcurrentLoads.

Context `{CoreJs}.

(** A new client holds only instances of its own, and [loadWeb3Api]
    keeps it so. *)
Lemma new_Web3ApiClient_cache_created config c :
  new_Web3ApiClient config = Returned c → cache_created c.
Proof.
  unfold new_Web3ApiClient. intros Hnew.
  destruct (sanitizeUriRedirects (config_redirects config)); simplify_eq.
  by intros key api.
Qed.

Lemma loadWeb3Api_cache_created uri c :
  cache_created c → cache_created (run (loadWeb3Api uri) c).1.
Proof.
  intros Hcreated.
  unfold run, loadWeb3Api, resolveUri_call. async_unfold.
  destruct (_apiCache c !! Uri.uri uri) as [api |] eqn:Hcache; [done|].
  change (redirects (traced _ (traced _ c))) with (redirects c).
  destruct (resolveUri uri (redirects c)) as [[ctor |] | e];
    [destruct (created_at_call ctor) | |]; cbn; try done;
    intros key api; cbn;
    (destruct (decide (key = Uri.uri uri)) as [-> | Hne];
     [rewrite lookup_insert_eq; intros [= <-]; cbn; lia
     | rewrite lookup_insert_ne by done; intros Hkey;
       specialize (Hcreated key api Hkey); lia]).
Qed.

(** X13.  After [n > 0] concurrent calls of [loadWeb3Api] for the same
    uncached Uri, on a client whose cache holds instances of its own,
    the calls have returned [n] different instances and the cache
    holds exactly one of them, under that Uri: the instances the other
    calls returned are in no cache entry.  The entries of other Uris
    are untouched. *)
Theorem concurrent_loads_cache n schedule uri c ctor :
  0 < n →
  _apiCache c !! Uri.uri uri = None →
  resolveUri uri (redirects c) = Returned (Some ctor) →
  cache_created c →
  ∃ c' apis cached,
    concurrent_loads n schedule uri c = (c', Returned <$> apis) ∧
    length apis = n ∧
    NoDup apis ∧
    cached ∈ apis ∧
    _apiCache c' !! Uri.uri uri = Some cached ∧
    (∀ key api,
       api ∈ apis → _apiCache c' !! key = Some api →
       key = Uri.uri uri ∧ api = cached) ∧
    ∀ key, key ≠ Uri.uri uri → _apiCache c' !! key = _apiCache c !! key.
Proof.
  intros Hn Hmiss Hres Hcreated.
  destruct (concurrent_loads_outcome n schedule uri c ctor Hmiss Hres)
    as (c' & apis & Hrun & Hlen & _ & _ & Hrefs & Hother & Hkey).
  destruct (Hkey Hn) as (cached & Hin & Hcached).
  exists c', apis, cached. split; [done|]. split; [done|]. split.
  { apply (NoDup_fmap_1 api_ref). rewrite Hrefs. apply NoDup_seq. }
  split; [done|]. split; [done|]. split; [| done].
  intros key api Hapi Hentry.
  destruct (decide (key = Uri.uri uri)) as [-> | Hne].
  - split; [done | congruence].
  - rewrite Hother in Hentry by done.
    specialize (Hcreated key api Hentry).
    assert (api_ref api ∈ seq (instances c) n) as Href.
    { rewrite <- Hrefs. by apply list_elem_of_fmap_2. }
    apply elem_of_seq in Href. lia.
Qed.

End ConcurrentLoads.

(** ** The further properties at work *)

Section MoreScenarios.

Import Scenario.

Lemma plugin_passive : Api_passive.
Proof.
  intros api options c. cbn. unfold plugin_invoke.
  by destruct (input options).
Qed.

Lemma makeRepeatedUnique_distinct_witness :
  makeRepeatedUnique ["foo"; "bar"; "toString"] = ["foo"; "bar"; "toString"].
Proof.
  apply (makeRepeatedUnique_distinct ["foo"; "bar"; "toString"]).
  apply (bool_decide_unpack (NoDup _)). by vm_compute.
Defined.

Lemma makeRepeatedUnique_NoDup_witness :
  NoDup (makeRepeatedUnique ["foo"; "foo"; "bar"]).
Proof.
  apply (makeRepeatedUnique_NoDup ["foo"; "foo"; "bar"]).
  - repeat constructor.
  - intros a b k Ha Hb _ Heq.
    rewrite !elem_of_cons, elem_of_nil in Ha, Hb.
    destruct Ha as [-> | [-> | [-> | []]]];
      destruct Hb as [-> | [-> | [-> | []]]]; cbn in Heq; discriminate.
Defined.


Lemma query_partial_success_witness :
  ∃ d,
    (run (query [] (fields [("a", JNum 1); ("b", JNull); ("c", JNum 3)]))
       client).2 =
      Returned
        (mkQueryApiResult (Some d)
           (Some (ErrList [Err "the plugin method threw"]))) ∧
    ∀ i key tagged,
      ["a"; "b"; "c"] !! i = Some key →
      [("a", ok (JNum 1)); ("b", failed); ("c", ok (JNum 3))] !! i
      = Some tagged →
      JsObject.get d key = Some (data tagged.2).
Proof.
  apply (query_partial_success []
           (fields [("a", JNum 1); ("b", JNull); ("c", JNum 3)]) client
           [("a", ok (JNum 1)); ("b", failed); ("c", ok (JNum 3))]).
  - reflexivity.
  - apply (bool_decide_unpack (NoDup _)). by vm_compute.
  - apply (bool_decide_unpack (_ ∉ _)). by vm_compute.
Defined.

Lemma query_errors_in_order_witness :
  ∃ result,
    (run (query [1] (fields [("a", JNull); ("b", JNum 2); ("c", JNull)]))
       client).2 = Returned result ∧
    q_errors result =
      Some (ErrList [Err "the plugin method threw";
                     Err "the plugin method threw"]) ∧
    (q_errors result = None ↔
     Forall (λ tagged : string * InvokeApiResult, error tagged.2 = None)
       [("a", failed); ("b", ok (JNum 2)); ("c", failed)]).
Proof.
  apply (query_errors_in_order [1]
           (fields [("a", JNull); ("b", JNum 2); ("c", JNull)]) client
           [("a", failed); ("b", ok (JNum 2)); ("c", failed)]).
  reflexivity.
Defined.


Lemma query_no_fields_witness :
  run (query [0] (fields [])) client =
  (traced [StartSpan "query"; SetAttribute "options";
           AddEvent "invocations finished"; SetAttribute "methods";
           SetAttribute "data"; EndSpan] client,
   Returned (mkQueryApiResult (Some JsObject.empty) None)).
Proof. apply (query_no_fields [0] (fields []) client). reflexivity. Defined.

Lemma query_compile_failure_leaves_client_witness :
  let c' := (run (query [] (mkQueryApiOptions "ens/a.eth" (inl "") None))
               client).1 in
  _apiCache c' = _apiCache client ∧
  _config c' = _config client ∧
  resolutions c' = resolutions client ∧
  instances c' = instances client ∧
  _tracer c' =
    _tracer client ++
    [StartSpan "query"; SetAttribute "options";
     RecordException (Err "Syntax Error: Unexpected <EOF>."); EndSpan].
Proof.
  apply (query_compile_failure_leaves_client []
           (mkQueryApiOptions "ens/a.eth" (inl "") None) client
           (Err "Syntax Error: Unexpected <EOF>.")).
  reflexivity.
Defined.

Lemma query_first_turn_witness :
  let c1 := (query [] (fields [("foo", JNum 1); ("foo", JNum 2);
                               ("bar", JNum 3)]) client).1 in
  resolutions c1 = resolutions client + 3 ∧
  _apiCache c1 = _apiCache client ∧
  instances c1 = instances client + 3.
Proof.
  destruct (query_first_turn []
              (fields [("foo", JNum 1); ("foo", JNum 2); ("bar", JNum 3)])
              client
              ((λ field, mkInvokeApiOptions uriA "query" field.1 field.2
                           None None)
                 <$> [("foo", JNum 1); ("foo", JNum 2); ("bar", JNum 3)]))
    as (Hstarted & Hcache & Hinstances).
  - reflexivity.
  - cbn zeta. split; [| split; [done|]].
    + rewrite Hstarted. f_equal.
    + rewrite Hinstances. f_equal.
Defined.

Lemma loadWeb3Api_same_uri_witness :
  ∃ c' api,
    run (a ← loadWeb3Api uriA; b ← loadWeb3Api uriA; mret (a, b)) client
    = (c', Returned (api, api)) ∧
    instances c' = S (instances client) ∧
    resolutions c' = S (resolutions client).
Proof. apply (loadWeb3Api_same_uri uriA client apiC); reflexivity. Defined.

Lemma concurrent_loads_cache_witness :
  ∃ c' apis cached,
    concurrent_loads 2 [1; 0] uriA client = (c', Returned <$> apis) ∧
    length apis = 2 ∧
    NoDup apis ∧
    cached ∈ apis ∧
    _apiCache c' !! Uri.uri uriA = Some cached ∧
    (∀ key api,
       api ∈ apis → _apiCache c' !! key = Some api →
       key = Uri.uri uriA ∧ api = cached) ∧
    ∀ key, key ≠ Uri.uri uriA →
           _apiCache c' !! key = _apiCache client !! key.
Proof.
  apply (concurrent_loads_cache 2 [1; 0] uriA client apiC);
    [lia | reflexivity | reflexivity |].
  intros key api Hkey. vm_compute in Hkey. discriminate.
Defined.

Lemma invoke_invalid_uri_witness :
  run (invoke (call "" JNull)) client =
  (traced [RecordException (Err "InvalidUriError"); EndSpan] client,
   Returned (mkInvokeApiResult None (Some (Err "InvalidUriError")))).
Proof.
  apply (invoke_invalid_uri (call "" JNull) client (Err "InvalidUriError")).
  reflexivity.
Defined.

Lemma invoke_cached_dispatch_witness :
  (run (invoke (call "ens/c.eth" (JNum 7))) warm).2 =
  Returned
    (caught
       (run (Api_invoke (mkApi 0 apiC)
               (mkInvokeApiOptions uriC "query" "echo" (JNum 7) None None))
          (traced [StartSpan "invoke"; SetAttribute "options";
                   StartSpan "load-web3api"; SetAttribute "uri"; EndSpan;
                   AddEvent "load-web3api"] warm)).2).
Proof.
  apply (invoke_cached_dispatch (call "ens/c.eth" (JNum 7)) uriC warm
           (mkApi 0 apiC)); reflexivity.
Defined.

Lemma invoke_resolves_then_dispatches_witness :
  ∃ c1,
    (run (invoke (call "ens/a.eth" (JNum 7))) client).2 =
      Returned
        (caught
           (run (Api_invoke (mkApi (instances client) apiC)
                   (mkInvokeApiOptions uriA "query" "echo" (JNum 7) None None))
              c1).2) ∧
    _apiCache c1 !! Uri.uri uriA = Some (mkApi (instances client) apiC) ∧
    resolutions c1 = S (resolutions client) ∧
    instances c1 = S (instances client).
Proof.
  apply (invoke_resolves_then_dispatches (call "ens/a.eth" (JNum 7)) uriA
           client apiC); reflexivity.
Defined.

Lemma invoke_unresolved_twice_witness :
  ∃ c',
    run (first ← invoke (call "ens/nobody.eth" JNull);
         second ← invoke (call "ens/nobody.eth" JNull);
         mret (first, second)) client
    = (c', Returned
             (mkInvokeApiResult None (Some (Err "UnresolvedUriError")),
              mkInvokeApiResult None (Some (Err "UnresolvedUriError")))) ∧
    resolutions c' = resolutions client + 2 ∧
    instances c' = instances client ∧
    _apiCache c' = _apiCache client.
Proof.
  apply (invoke_unresolved_twice (call "ens/nobody.eth" JNull)
           (Uri.mk "ens" "nobody.eth" "w3://ens/nobody.eth") client
           (Err "UnresolvedUriError")); reflexivity.
Defined.

Lemma invoke_twice_resolves_once_witness :
  ∃ c' c1 c2,
    run (first ← invoke (call "ens/a.eth" (JNum 1));
         second ← invoke (call "w3://ens/a.eth" JNull);
         mret (first, second)) client
    = (c',
       Returned
         (caught
            (run (Api_invoke (mkApi (instances client) apiC)
                    (mkInvokeApiOptions uriA "query" "echo" (JNum 1)
                       None None)) c1).2,
          caught
            (run (Api_invoke (mkApi (instances client) apiC)
                    (mkInvokeApiOptions uriA "query" "echo" JNull
                       None None)) c2).2)) ∧
    resolutions c' = S (resolutions client) ∧
    instances c' = S (instances client) ∧
    _apiCache c' !! Uri.uri uriA = Some (mkApi (instances client) apiC).
Proof.
  apply (invoke_twice_resolves_once (call "ens/a.eth" (JNum 1))
           (call "w3://ens/a.eth" JNull) uriA client apiC);
    [exact plugin_passive | reflexivity..].
Defined.

Lemma default_redirects_fallback_witness :
  ∃ sanitized,
    sanitizeUriRedirects (config_redirects chain) = Returned sanitized ∧
    _apiCache client = ∅ ∧
    ∀ matching : UriRedirect Uri.t → bool,
      List.find matching sanitized = None →
      List.find matching (redirects client) =
      List.find matching getDefaultRedirects.
Proof. apply (default_redirects_fallback chain client). reflexivity. Defined.

End MoreScenarios.
